(** * The image-set navigator of the picture viewers

    A shallow embedding of the state handling of the three viewers of the
    repository: [pictureQT.py] (the Qt viewer, module [QT] below), and
    [main.py] and [pictureGTK.py] (the two GTK viewers, which share their
    state and handlers, module [GTK]).

    Python [int] is [Z], Python [float] is the binary64 [float] of the
    kernel, a Python [str] is a [string] whose characters are the code
    points 0..255, and an exception is the [None] of an [option]. *)

From Stdlib Require Import ZArith List String Ascii Bool Lia.
From Stdlib Require Import Floats Permutation Sorted OrderedTypeEx FinFun.
Import ListNotations.

Set Warnings "-inexact-float".

Open Scope Z_scope.

(** ** Python built-ins used by the viewers *)

Module Py.

(** [x <- e ;; k]: the rest of a block runs only if [e] did not raise. *)
Definition bind {A B : Type} (m : option A) (k : A -> option B) : option B :=
  match m with
  | Some a => k a
  | None => None
  end.

Notation "x <- m ;; k" := (bind m (fun x => k))
  (at level 61, m at next level, right associativity).

(** A list comprehension [[f(x) for x in l]], stopped by the first [f(x)]
    that raises. *)
Fixpoint comprehension {A B : Type} (f : A -> option B) (l : list A)
  : option (list B) :=
  match l with
  | [] => Some []
  | x :: l' => y <- f x ;; ys <- comprehension f l' ;; Some (y :: ys)
  end.

(** [len(l)] *)
Definition len {A : Type} (l : list A) : Z := Z.of_nat (List.length l).

(** [max(a, b)] and [min(a, b)] on [int]: the first argument is kept unless
    the second is strictly greater (smaller). *)
Definition max (a b : Z) : Z := if a <? b then b else a.
Definition min (a b : Z) : Z := if b <? a then b else a.

(** [max(a, b)], [min(a, b)] and [min(a, b, c)] on [float]: the comparisons
    are those of IEEE 754, so a NaN is never strictly above or below. *)
Definition fmax (a b : float) : float := if (a <? b)%float then b else a.
Definition fmin (a b : float) : float := if (b <? a)%float then b else a.
Definition fmin3 (a b c : float) : float := fmin (fmin a b) c.

(** [float(n)] for an [int] of magnitude below 2^63; the conversion is
    exact below 2^53. *)
Definition float_of_int (n : Z) : float :=
  if n <? 0 then (- PrimFloat.of_uint63 (Uint63.of_Z (- n)))%float
  else PrimFloat.of_uint63 (Uint63.of_Z n).

(** [a / b] on two [int]s of magnitude below 2^53, where Python's
    correctly rounded quotient is the binary64 quotient of the two
    conversions; [b = 0] raises ZeroDivisionError. *)
Definition truediv (a b : Z) : option float :=
  if b =? 0 then None
  else Some (float_of_int a / float_of_int b)%float.

(** The list [l] without its element at position [n]. *)
Fixpoint remove_at {A : Type} (n : nat) (l : list A) : list A :=
  match l, n with
  | [], _ => []
  | _ :: l', O => l'
  | x :: l', S n' => x :: remove_at n' l'
  end.

(** [l.pop(i)] with Python's negative indices: the element removed and the
    list left; IndexError out of range. *)
Definition pop {A : Type} (l : list A) (i : Z) : option (A * list A) :=
  if (0 <=? i) && (i <? len l) then
    x <- nth_error l (Z.to_nat i) ;; Some (x, remove_at (Z.to_nat i) l)
  else if (- len l <=? i) && (i <? 0) then
    x <- nth_error l (Z.to_nat (len l + i)) ;;
    Some (x, remove_at (Z.to_nat (len l + i)) l)
  else None.

(** *** Strings

    Characters are code points 0..255 (Basic Latin and Latin-1 Supplement),
    with the Unicode properties Python gives them. *)

Definition ord (c : ascii) : N := N_of_ascii c.

(** The decimal digits (category Nd), which the pattern [\d] matches and
    [int] reads: '0'..'9'. *)
Definition is_decimal (c : ascii) : bool :=
  ((48 <=? ord c) && (ord c <=? 57))%N.

(** The characters [str.isdigit] accepts: the decimal digits and the
    superscript digits U+00B2, U+00B3 and U+00B9. *)
Definition is_digit (c : ascii) : bool :=
  (is_decimal c || (ord c =? 178) || (ord c =? 179) || (ord c =? 185))%N.

Fixpoint all_chars (f : ascii -> bool) (s : string) : bool :=
  match s with
  | EmptyString => true
  | String c s' => f c && all_chars f s'
  end.

(** [t.isdigit()]: at least one character, and all of them digits. *)
Definition isdigit (t : string) : bool :=
  match t with
  | EmptyString => false
  | _ => all_chars is_digit t
  end.

(** The value of a string of decimal digits read after [acc]. *)
Fixpoint int_digits (acc : Z) (t : string) : option Z :=
  match t with
  | EmptyString => Some acc
  | String c t' =>
      if is_decimal c then int_digits (10 * acc + (Z.of_N (ord c) - 48)) t'
      else None
  end.

(** [int(t)] on a string without sign, blanks or underscores (such as one
    that passed [isdigit]): ValueError unless [t] is a non-empty string of
    decimal digits. *)
Definition int (t : string) : option Z :=
  match t with
  | EmptyString => None
  | _ => int_digits 0 t
  end.

(** [c.lower()]: 'A'..'Z' and U+00C0..U+00DE, the multiplication sign
    U+00D7 apart, move up by 32. *)
Definition lower_char (c : ascii) : ascii :=
  let n := ord c in
  if (((65 <=? n) && (n <=? 90)) ||
      ((192 <=? n) && (n <=? 222) && negb (n =? 215)))%N
  then ascii_of_N (n + 32) else c.

Fixpoint lower (t : string) : string :=
  match t with
  | EmptyString => EmptyString
  | String c t' => String (lower_char c) (lower t')
  end.

(** [s.rfind('.')], with [-1] when there is no dot. *)
Fixpoint rfind_dot (s : string) : Z :=
  match s with
  | EmptyString => -1
  | String c s' =>
      let r := rfind_dot s' in
      if 0 <=? r then r + 1
      else if Ascii.eqb c "."%char then 0 else -1
  end.

(** [s[i:]] for [0 <= i]. *)
Fixpoint drop (n : nat) (s : string) : string :=
  match n, s with
  | O, _ => s
  | S n', String _ s' => drop n' s'
  | S _, EmptyString => EmptyString
  end.

(** [re.split(r'(\d+)', s)]: the text between the runs of decimal digits
    and the runs themselves, in turn. [cur] is the piece being read and
    [in_run] tells whether it is a run of digits. *)
Fixpoint re_split_digits_from (cur : string) (in_run : bool) (s : string)
  : list string :=
  match s with
  | EmptyString => if in_run then [cur; EmptyString] else [cur]
  | String c s' =>
      if Bool.eqb (is_decimal c) in_run
      then re_split_digits_from (cur ++ String c EmptyString)%string in_run s'
      else cur :: re_split_digits_from (String c EmptyString) (negb in_run) s'
  end.

Definition re_split_digits (s : string) : list string :=
  re_split_digits_from EmptyString false s.

(** *** Sort keys: lists of [int] and [str] *)

Inductive key_elem : Type :=
  | KInt (n : Z)
  | KStr (s : string).

(** [x == y]: an [int] and a [str] are unequal. *)
Definition elem_eqb (x y : key_elem) : bool :=
  match x, y with
  | KInt n, KInt m => n =? m
  | KStr s, KStr t => String.eqb s t
  | _, _ => false
  end.

(** [x < y]: integers by value, strings by code points; TypeError between
    an [int] and a [str]. *)
Definition elem_lt (x y : key_elem) : option bool :=
  match x, y with
  | KInt n, KInt m => Some (n <? m)
  | KStr s, KStr t => Some (String.ltb s t)
  | _, _ => None
  end.

(** [a < b] on lists: the first pair of unequal elements decides; without
    one the shorter list is the smaller. *)
Fixpoint list_lt (a b : list key_elem) : option bool :=
  match a, b with
  | [], [] => Some false
  | [], _ :: _ => Some true
  | _ :: _, [] => Some false
  | x :: a', y :: b' => if elem_eqb x y then list_lt a' b' else elem_lt x y
  end.

(** *** [sorted(l, key=f)]

    The keys are computed first, once per element and in order; the sort is
    stable and compares keys with [<] only. It is modelled by the insertion
    of each element, from left to right, before the first element whose key
    is strictly greater. *)

Section Sorted.
Context {A K : Type}.
Variable lt : K -> K -> option bool.

Fixpoint insert (x : K * A) (l : list (K * A)) : option (list (K * A)) :=
  match l with
  | [] => Some [x]
  | y :: l' =>
      b <- lt (fst x) (fst y) ;;
      if b then Some (x :: y :: l')
      else l'' <- insert x l' ;; Some (y :: l'')
  end.

Fixpoint sort_into (acc : list (K * A)) (l : list (K * A))
  : option (list (K * A)) :=
  match l with
  | [] => Some acc
  | x :: l' => acc' <- insert x acc ;; sort_into acc' l'
  end.

Definition sorted (key : A -> option K) (l : list A) : option (list A) :=
  keyed <- comprehension (fun x => k <- key x ;; Some (k, x)) l ;;
  out <- sort_into [] keyed ;;
  Some (map snd out).
End Sorted.

End Py.

Import Py.

(** ** Paths and the file system *)

(** A [pathlib.Path] as its components, the root first. *)
Definition Path : Type := list string.

Definition path_eq_dec : forall p q : Path, {p = q} + {p <> q} :=
  list_eq_dec string_dec.

Definition path_eqb (p q : Path) : bool :=
  if path_eq_dec p q then true else false.

(** [p.name], [p.parent] and [p / n] *)
Definition name (p : Path) : string := last p EmptyString.
Definition parent (p : Path) : Path := removelast p.
Definition child (p : Path) (n : string) : Path := p ++ [n].

(** [p.suffix]: the name from its last dot on, unless that dot starts or
    ends the name. *)
Definition suffix (p : Path) : string :=
  let n := name p in
  let i := rfind_dot n in
  if (0 <? i) && (i <? Z.of_nat (String.length n) - 1)
  then drop (Z.to_nat i) n
  else EmptyString.

Definition SUPPORTED_EXTS : list string :=
  [".jpg"; ".jpeg"; ".png"; ".bmp"; ".gif"; ".webp"; ".tif"; ".tiff"]%string.

(** [p.suffix.lower() in SUPPORTED_EXTS] *)
Definition supported (p : Path) : bool :=
  existsb (String.eqb (lower (suffix p))) SUPPORTED_EXTS.

(** What the viewers ask of their surroundings: the file system, the image
    decoder and the size of the viewport. *)
Record Env : Type := {
  is_dir : Path -> bool;
  (** the names under a directory; [None] when it cannot be listed *)
  listdir : Path -> option (list string);
  exists_ : Path -> bool;
  resolve : Path -> Path;
  (** whether the image reader decodes the file *)
  decodes : Path -> bool;
  (** width and height of the scroll area's viewport *)
  viewport : Z * Z
}.

(** [list(p.iterdir())] *)
Definition iterdir (e : Env) (p : Path) : option (list Path) :=
  names <- listdir e p ;; Some (map (child p) names).

(** [human_sort_key] of pictureQT.py *)
Definition key_of_piece (t : string) : option key_elem :=
  if isdigit t then n <- int t ;; Some (KInt n) else Some (KStr (lower t)).

Definition human_sort_key (p : Path) : option (list key_elem) :=
  comprehension key_of_piece (re_split_digits (name p)).

(** ** The Qt viewer, pictureQT.py *)

Module QT.

(** How [update_pixmap] sizes the picture it puts on the label. *)
Inductive sizing : Type :=
  | Intrinsic                      (* the pixmap as decoded *)
  | Fitted (w h : Z)               (* scaled into w x h, keeping the ratio *)
  | Scaled (f : float).            (* scaled by the factor f *)

(** The picture on [image_label]. A pixmap is the file it was decoded from
    and the rotation applied to it. *)
Inductive label : Type :=
  | Blank
  | Shown (pm : Path * Z) (how : sizing).

Record ImageViewer : Type := {
  files : list Path;
  index : Z;
  scale : float;
  fit_to_window : bool;
  rotation_deg : Z;
  orig_pixmap : option (Path * Z);   (* [None]: the attribute is not set *)
  image_label : label
}.

(** The state [__init__] leaves. *)
Definition init : ImageViewer :=
  {| files := []; index := -1; scale := 1.0; fit_to_window := false;
     rotation_deg := 0; orig_pixmap := None; image_label := Blank |}.

Definition set_files (v : list Path) (s : ImageViewer) : ImageViewer :=
  {| files := v; index := index s; scale := scale s;
     fit_to_window := fit_to_window s; rotation_deg := rotation_deg s;
     orig_pixmap := orig_pixmap s; image_label := image_label s |}.

Definition set_index (v : Z) (s : ImageViewer) : ImageViewer :=
  {| files := files s; index := v; scale := scale s;
     fit_to_window := fit_to_window s; rotation_deg := rotation_deg s;
     orig_pixmap := orig_pixmap s; image_label := image_label s |}.

Definition set_scale (v : float) (s : ImageViewer) : ImageViewer :=
  {| files := files s; index := index s; scale := v;
     fit_to_window := fit_to_window s; rotation_deg := rotation_deg s;
     orig_pixmap := orig_pixmap s; image_label := image_label s |}.

Definition set_fit_to_window (v : bool) (s : ImageViewer) : ImageViewer :=
  {| files := files s; index := index s; scale := scale s;
     fit_to_window := v; rotation_deg := rotation_deg s;
     orig_pixmap := orig_pixmap s; image_label := image_label s |}.

Definition set_rotation_deg (v : Z) (s : ImageViewer) : ImageViewer :=
  {| files := files s; index := index s; scale := scale s;
     fit_to_window := fit_to_window s; rotation_deg := v;
     orig_pixmap := orig_pixmap s; image_label := image_label s |}.

Definition set_orig_pixmap (v : option (Path * Z)) (s : ImageViewer)
  : ImageViewer :=
  {| files := files s; index := index s; scale := scale s;
     fit_to_window := fit_to_window s; rotation_deg := rotation_deg s;
     orig_pixmap := v; image_label := image_label s |}.

Definition set_image_label (v : label) (s : ImageViewer) : ImageViewer :=
  {| files := files s; index := index s; scale := scale s;
     fit_to_window := fit_to_window s; rotation_deg := rotation_deg s;
     orig_pixmap := orig_pixmap s; image_label := v |}.

(** [update_pixmap]: sizes the decoded pixmap for the label; the viewport
    less a margin of 24 in fit mode, the factor [scale] otherwise. *)
Definition update_pixmap (e : Env) (s : ImageViewer) : ImageViewer :=
  match orig_pixmap s with
  | None => s
  | Some pm =>
      let how :=
        if fit_to_window s then
          let w := fst (viewport e) - 24 in
          let h := snd (viewport e) - 24 in
          if (0 <? w) && (0 <? h) then Fitted w h else Intrinsic
        else if negb (scale s =? 1.0)%float then Scaled (scale s)
        else Intrinsic in
      set_image_label (Shown pm how) s
  end.

(** [show_current]: clamps the index, decodes the file under it with the
    current rotation and shows it at scale 1.0; an empty list clears the
    label and a file that does not decode stops before the scale is set. *)
Definition show_current (e : Env) (s : ImageViewer) : ImageViewer :=
  match files s with
  | [] => set_image_label Blank s
  | first :: _ =>
      let s := set_index (max 0 (min (index s) (len (files s) - 1))) s in
      let path := nth (Z.to_nat (index s)) (files s) first in
      if negb (decodes e path) then s
      else
        let s := set_orig_pixmap (Some (path, rotation_deg s)) s in
        let s := set_scale 1.0%float s in
        update_pixmap e s
  end.

(** [load_files] *)
Definition load_files (e : Env) (fl : list Path) (s : ImageViewer)
  : ImageViewer :=
  let s := set_files (filter (exists_ e) fl) s in
  let s := set_index (match files s with [] => -1 | _ :: _ => 0 end) s in
  show_current e s.

(** The loop of [open_path] over [enumerate(self.files)]: the position of
    the first file that resolves to what [path] resolves to, counted from
    [i]. *)
Fixpoint find_resolved (e : Env) (path : Path) (i : Z) (l : list Path)
  : option Z :=
  match l with
  | [] => None
  | p :: l' =>
      if path_eqb (resolve e p) (resolve e path) then Some i
      else find_resolved e path (i + 1) l'
  end.

(** [open_path]: a directory gives its supported files in the order of
    [human_sort_key]; a file gives itself and the entries of its directory,
    with the index put on the file. *)
Definition open_path (e : Env) (path : Path) (s : ImageViewer)
  : option ImageViewer :=
  if is_dir e path then
    entries <- iterdir e path ;;
    ordered <- sorted list_lt human_sort_key entries ;;
    Some (load_files e (filter supported ordered) s)
  else
    entries <- iterdir e (parent path) ;;
    let s := load_files e (filter supported (path :: entries)) s in
    let s := match find_resolved e path 0 (files s) with
             | Some i => set_index i s
             | None => s
             end in
    Some (show_current e s).

(** [prev_image] and [next_image]. The divisor of [%] is the length of a
    non-empty list, and for a positive divisor Python's [%] is [Z.modulo]. *)
Definition prev_image (e : Env) (s : ImageViewer) : ImageViewer :=
  match files s with
  | [] => s
  | _ :: _ => show_current e (set_index ((index s - 1) mod len (files s)) s)
  end.

Definition next_image (e : Env) (s : ImageViewer) : ImageViewer :=
  match files s with
  | [] => s
  | _ :: _ => show_current e (set_index ((index s + 1) mod len (files s)) s)
  end.

(** [apply_zoom], [reset_zoom] and [toggle_fit] *)
Definition apply_zoom (e : Env) (factor : float) (s : ImageViewer)
  : ImageViewer :=
  let s := set_fit_to_window false s in
  let s := set_scale (scale s * factor)%float s in
  let s := set_scale (fmax 0.05 (fmin (scale s) 20.0))%float s in
  update_pixmap e s.

Definition reset_zoom (e : Env) (s : ImageViewer) : ImageViewer :=
  let s := set_fit_to_window false s in
  let s := set_scale 1.0%float s in
  update_pixmap e s.

Definition toggle_fit (e : Env) (s : ImageViewer) : ImageViewer :=
  let s := set_fit_to_window (negb (fit_to_window s)) s in
  update_pixmap e s.

(** [rotate]; [% 360] is [Z.modulo], also for a negative sum. *)
Definition rotate (e : Env) (deg : Z) (s : ImageViewer) : ImageViewer :=
  let s := set_rotation_deg ((rotation_deg s + deg) mod 360) s in
  match orig_pixmap s with
  | Some _ => update_pixmap e s
  | None => s
  end.

(** [after_delete]: runs once the file under the index has been removed
    from the disk. *)
Definition after_delete (e : Env) (s : ImageViewer) : option ImageViewer :=
  r <- pop (files s) (index s) ;;
  let s := set_files (snd r) s in
  let s := set_index (max 0 (min (index s) (len (files s) - 1))) s in
  Some (show_current e s).

End QT.

(** ** The GTK viewers, main.py and pictureGTK.py

    Both keep the same three attributes and have the same handlers for
    previous, next, zoom and fit; they differ in [on_open]'s dialog and in
    [show_image]. *)

Module GTK.

Record ImageViewer : Type := {
  files : list Path;
  index : Z;
  scale : float
}.

Definition init : ImageViewer :=
  {| files := []; index := -1; scale := 1.0 |}.

(** What [show_image] asks of the toolkit: the allocation of the image
    widget, the allocated size of the window, and the size of a decoded
    file ([None] when the file does not load, which raises). *)
Record Display : Type := {
  alloc : Z * Z;
  allocated : Z * Z;
  image_size : Path -> option (Z * Z)
}.

(** The scale main.py's [show_image] computes for an image of
    [img_w] x [img_h] in an area of [area_w] x [area_h]:
    [min(area_w / img_w, area_h / img_h, 1.0)]. *)
Definition fit_scale (area_w area_h img_w img_h : Z) : option float :=
  a <- truediv area_w img_w ;;
  b <- truediv area_h img_h ;;
  Some (fmin3 a b 1.0%float).

(** [int(x)] on a [float]: truncation towards zero; an infinity or a NaN
    raises. *)
Definition int_of_float (x : float) : option Z :=
  match Prim2SF x with
  | S754_zero _ => Some 0
  | S754_finite s m e =>
      let a := if 0 <=? e then Zpos m * 2 ^ e else Zpos m / 2 ^ (- e) in
      Some (if s then - a else a)
  | _ => None
  end.

(** main.py's [show_image]: the file, the scale and the size in pixels
    handed to [scale_simple]; nothing is shown when the index is out of
    range. The attribute [scale] is not read. *)
Definition show_image (d : Display) (s : ImageViewer)
  : option (option (Path * float * (Z * Z))) :=
  if (0 <=? index s) && (index s <? len (files s)) then
    match nth_error (files s) (Z.to_nat (index s)) with
    | None => None
    | Some path =>
        sz <- image_size d path ;;
        let area_w := if 0 <? fst (alloc d) then fst (alloc d)
                      else fst (allocated d) in
        let area_h := if 0 <? snd (alloc d) then snd (alloc d)
                      else snd (allocated d) in
        sc <- fit_scale area_w area_h (fst sz) (snd sz) ;;
        w <- int_of_float (float_of_int (fst sz) * sc) ;;
        h <- int_of_float (float_of_int (snd sz) * sc) ;;
        Some (Some (path, sc, (w, h)))
    end
  else Some None.

(** pictureGTK.py's [show_image]: the image scaled by the attribute. *)
Definition show_image_plain (d : Display) (s : ImageViewer)
  : option (option (Path * float * (Z * Z))) :=
  if (0 <=? index s) && (index s <? len (files s)) then
    match nth_error (files s) (Z.to_nat (index s)) with
    | None => None
    | Some path =>
        sz <- image_size d path ;;
        w <- int_of_float (float_of_int (fst sz) * scale s) ;;
        h <- int_of_float (float_of_int (snd sz) * scale s) ;;
        Some (Some (path, scale s, (w, h)))
    end
  else Some None.

(** [f.lower().endswith((".png", ".jpg", ".jpeg", ".bmp", ".gif"))] *)
Definition ends_with (suf s : string) : bool :=
  let n := String.length s in
  let k := String.length suf in
  (k <=? n)%nat && String.eqb (drop (n - k) s) suf.

Definition is_image_name (f : string) : bool :=
  existsb (fun suf => ends_with suf (lower f))
    [".png"; ".jpg"; ".jpeg"; ".bmp"; ".gif"]%string.

(** [l.index(x)] counted from [i]; ValueError when [x] is not in [l]. *)
Fixpoint index_of (x : Path) (i : Z) (l : list Path) : option Z :=
  match l with
  | [] => None
  | y :: l' => if path_eqb y x then Some i else index_of x (i + 1) l'
  end.

(** What [on_open] does with the file picked in the dialog: the image
    files of its folder in the order [os.listdir] gives them, and the index
    of the file among them. *)
Definition on_open (e : Env) (path : Path) (s : ImageViewer)
  : option ImageViewer :=
  let folder := parent path in
  names <- listdir e folder ;;
  let fl := map (child folder) (filter is_image_name names) in
  i <- index_of path 0 fl ;;
  Some {| files := fl; index := i; scale := scale s |}.

(** [on_prev] and [on_next]; the divisor of [%] is positive. *)
Definition on_prev (s : ImageViewer) : ImageViewer :=
  match files s with
  | [] => s
  | _ :: _ => {| files := files s;
                 index := (index s - 1) mod len (files s);
                 scale := scale s |}
  end.

Definition on_next (s : ImageViewer) : ImageViewer :=
  match files s with
  | [] => s
  | _ :: _ => {| files := files s;
                 index := (index s + 1) mod len (files s);
                 scale := scale s |}
  end.

(** [on_zoom_in], [on_zoom_out] and [on_fit] *)
Definition on_zoom_in (s : ImageViewer) : ImageViewer :=
  {| files := files s; index := index s; scale := (scale s * 1.2)%float |}.

Definition on_zoom_out (s : ImageViewer) : ImageViewer :=
  {| files := files s; index := index s; scale := (scale s / 1.2)%float |}.

Definition on_fit (s : ImageViewer) : ImageViewer :=
  {| files := files s; index := index s; scale := 1.0%float |}.

End GTK.

(** ** The other handlers of the Qt viewer *)

Module QTHandlers.
Import QT.

(** [l[i]] with Python's negative indices; IndexError out of range. *)
Definition getitem {A : Type} (l : list A) (i : Z) : option A :=
  if (0 <=? i) && (i <? len l) then nth_error l (Z.to_nat i)
  else if (- len l <=? i) && (i <? 0) then nth_error l (Z.to_nat (len l + i))
  else None.

(** The loop of [on_thumb_clicked] over [enumerate(self.files)]: the
    position of the first file equal to [path], counted from [i]. *)
Fixpoint find_path (path : Path) (i : Z) (l : list Path) : option Z :=
  match l with
  | [] => None
  | p :: l' => if path_eqb p path then Some i else find_path path (i + 1) l'
  end.

(** [on_thumb_clicked]; [path] is the path the clicked item carries. *)
Definition on_thumb_clicked (e : Env) (path : Path) (s : ImageViewer)
  : ImageViewer :=
  let s := match find_path path 0 (files s) with
           | Some i => set_index i s
           | None => s
           end in
  show_current e s.

(** The button pressed in the question of [delete_current]. *)
Inductive answer : Type :=
  | Cancel
  | Yes         (* move to the trash *)
  | No.         (* delete for good *)

(** What deleting asks of the system: whether [gio] is installed, the
    return code of [gio trash] ([None] when running it raises), and whether
    [path.unlink()] returns ([false]: it raises). *)
Record Disk : Type := {
  which_gio : bool;
  gio_trash : Path -> option Z;
  unlink : Path -> bool
}.

(** [move_to_trash]: true only when [gio] is found and returns 0. *)
Definition move_to_trash (d : Disk) (path : Path) : bool :=
  if which_gio d then
    match gio_trash d path with
    | Some rc => rc =? 0
    | None => false
    end
  else false.

(** [delete_current]. In the branch that deletes for good [after_delete]
    runs inside the [try], so what it raises is caught there. *)
Definition delete_current (e : Env) (d : Disk) (ans : answer)
  (s : ImageViewer) : option ImageViewer :=
  match files s with
  | [] => Some s
  | _ :: _ =>
      path <- getitem (files s) (index s) ;;
      match ans with
      | Yes => if move_to_trash d path then after_delete e s else Some s
      | No =>
          if exists_ e path then
            if unlink d path then
              match after_delete e s with
              | Some s' => Some s'
              | None => Some s
              end
            else Some s
          else Some s
      | Cancel => Some s
      end
  end.

(** [wheelEvent]: [ctrl] tells whether Control is held and [dy] is
    [angleDelta().y()]. *)
Definition wheelEvent (e : Env) (ctrl : bool) (dy : Z) (s : ImageViewer)
  : ImageViewer :=
  if ctrl then
    apply_zoom e (if 0 <? dy then 1.15%float else (1 / 1.15)%float) s
  else if 0 <? dy then prev_image e s
  else next_image e s.

(** [dropEvent]: the first of the dropped paths is opened. *)
Definition dropEvent (e : Env) (urls : list Path) (s : ImageViewer)
  : option ImageViewer :=
  match urls with
  | [] => Some s
  | p :: _ => open_path e p s
  end.

(** [open_dialog]: the files picked in the dialog, none when it was
    cancelled. *)
Definition open_dialog (e : Env) (picked : list Path) (s : ImageViewer)
  : ImageViewer :=
  match picked with
  | [] => s
  | _ :: _ => load_files e picked s
  end.

(** [open_folder_dialog]: the folder picked, [None] when cancelled. *)
Definition open_folder_dialog (e : Env) (folder : option Path)
  (s : ImageViewer) : option ImageViewer :=
  match folder with
  | None => Some s
  | Some p => open_path e p s
  end.

(** [resizeEvent] *)
Definition resizeEvent (e : Env) (s : ImageViewer) : ImageViewer :=
  if fit_to_window s then update_pixmap e s else s.

(** What the user and the timer can do, as [create_actions] and
    [setup_shortcuts] wire it to the handlers. *)
Inductive event : Type :=
  | OpenPath (path : Path)              (* start argument *)
  | OpenDialog (picked : list Path)     (* Ctrl+O *)
  | OpenFolder (folder : option Path)   (* Ctrl+Shift+O *)
  | Drop (urls : list Path)
  | ThumbClicked (path : Path)
  | Prev                                (* Left *)
  | Next                                (* Right, and the slideshow timer *)
  | Wheel (ctrl : bool) (dy : Z)
  | ZoomIn                              (* Ctrl++ *)
  | ZoomOut                             (* Ctrl+- *)
  | ZoomReset                           (* Ctrl+0 *)
  | ToggleFit                           (* F *)
  | RotateLeft                          (* L *)
  | RotateRight                         (* R *)
  | Delete (ans : answer)               (* Del *)
  | Resize.

Definition handle (e : Env) (d : Disk) (ev : event) (s : ImageViewer)
  : option ImageViewer :=
  match ev with
  | OpenPath path => open_path e path s
  | OpenDialog picked => Some (open_dialog e picked s)
  | OpenFolder folder => open_folder_dialog e folder s
  | Drop urls => dropEvent e urls s
  | ThumbClicked path => Some (on_thumb_clicked e path s)
  | Prev => Some (prev_image e s)
  | Next => Some (next_image e s)
  | Wheel ctrl dy => Some (wheelEvent e ctrl dy s)
  | ZoomIn => Some (apply_zoom e 1.15%float s)
  | ZoomOut => Some (apply_zoom e (1 / 1.15)%float s)
  | ZoomReset => Some (reset_zoom e s)
  | ToggleFit => Some (toggle_fit e s)
  | RotateLeft => Some (rotate e (-90) s)
  | RotateRight => Some (rotate e 90 s)
  | Delete ans => delete_current e d ans s
  | Resize => Some (resizeEvent e s)
  end.

(** A session: events in order, each with the surroundings it meets; it
    ends with the first handler that raises. *)
Fixpoint run (steps : list (Env * Disk * event)) (s : ImageViewer)
  : option ImageViewer :=
  match steps with
  | [] => Some s
  | (e, d, ev) :: rest => s' <- handle e d ev s ;; run rest s'
  end.

End QTHandlers.

(** * Vocabulary of the statements *)

(** ** Positions in the list of files *)

(** The file under the index, when the index is a position of the list. *)
Definition current (s : QT.ImageViewer) : option Path :=
  if (0 <=? QT.index s) && (QT.index s <? len (QT.files s))
  then nth_error (QT.files s) (Z.to_nat (QT.index s))
  else None.

Definition clamp_index (s : QT.ImageViewer) : Z :=
  max 0 (min (QT.index s) (len (QT.files s) - 1)).

(** The file [show_current] decodes: the one under the clamped index. *)
Definition shown_file (s : QT.ImageViewer) : option Path :=
  nth_error (QT.files s) (Z.to_nat (clamp_index s)).

(** ** Sort keys and their order *)

Definition is_int (x : key_elem) : bool :=
  match x with
  | KInt _ => true
  | KStr _ => false
  end.

(** [shape b k]: the elements of [k] are in turn [int] and [str], the
    first one an [int] exactly when [b] holds. *)
Fixpoint shape (b : bool) (k : list key_elem) : bool :=
  match k with
  | [] => true
  | x :: k' => Bool.eqb (is_int x) b && shape (negb b) k'
  end.

(** The pieces of a split name: in turn text without a decimal digit and
    non-empty runs of decimal digits. *)
Fixpoint pieces_ok (in_run : bool) (l : list string) : bool :=
  match l with
  | [] => true
  | t :: l' =>
      (if in_run
       then negb (String.eqb t EmptyString) && all_chars is_decimal t
       else all_chars (fun c => negb (is_decimal c)) t)
      && pieces_ok (negb in_run) l'
  end.

Definition good_key (k : list key_elem) : Prop := shape false k = true.

(** Natural order as the specification words it: runs are compared in
    turn, a run of digits by its value, text without regard to case (the
    keys hold it in lower case), and a name that is a proper prefix of
    another comes first. *)
Inductive natural_lt : list key_elem -> list key_elem -> Prop :=
  | natural_prefix (y : key_elem) (b : list key_elem) :
      natural_lt [] (y :: b)
  | natural_digits (n m : Z) (a b : list key_elem) :
      n < m -> natural_lt (KInt n :: a) (KInt m :: b)
  | natural_text (s t : string) (a b : list key_elem) :
      String_as_OT.lt s t -> natural_lt (KStr s :: a) (KStr t :: b)
  | natural_next (x : key_elem) (a b : list key_elem) :
      natural_lt a b -> natural_lt (x :: a) (x :: b).

(** [p] may stand before [q] in natural order: both have a key, and the key
    of [q] is not naturally below the key of [p]. *)
Definition natural_le (p q : Path) : Prop :=
  exists kp kq,
    human_sort_key p = Some kp /\ human_sort_key q = Some kq /\
    ~ natural_lt kq kp.

(** ** The output of [sorted] *)

Section SortedVocabulary.
Context {A K : Type}.
Variable lt : K -> K -> option bool.
Variable good : K -> Prop.
Variable key : A -> option K.

(** [x] may stand before [y]: the key of [y] is not below that of [x]. *)
Definition key_le (x y : K * A) : Prop := lt (fst y) (fst x) = Some false.

Definition good_keys (l : list (K * A)) : Prop :=
  Forall (fun x => good (fst x)) l.

(** [p] may stand before [q] in the output. *)
Definition in_order (p q : A) : Prop :=
  exists kp kq, key p = Some kp /\ key q = Some kq /\ lt kq kp = Some false.

End SortedVocabulary.

(** ** Numbers *)

(** A number: not a NaN. *)
Definition is_number (x : float) : Prop := Prim2SF x <> S754_nan.

(** Clamping as the specification words it: a value below the range gives
    its lower end, a value above gives its upper end, any other value
    stays. *)
Definition clamp_spec (lo hi x : float) : float :=
  if (x <? lo)%float then lo else if (hi <? x)%float then hi else x.

(** ** The states the Qt viewer goes through *)

(** The state is in order: the index is a position of the list of files
    unless the list is empty, the rotation lies in [0, 360) and the scale in
    [0.05, 20.0]. *)
Definition in_order_state (s : QT.ImageViewer) : Prop :=
  (QT.files s = [] \/ 0 <= QT.index s < len (QT.files s)) /\
  0 <= QT.rotation_deg s < 360 /\
  (0.05 <=? QT.scale s)%float = true /\
  (QT.scale s <=? 20.0)%float = true.

(** The states reached from [__init__] by the handlers, whatever the
    surroundings are at each call; [after_delete] runs only from
    [delete_current], which returns at once on an empty list. *)
Inductive reachable : QT.ImageViewer -> Prop :=
  | reach_init : reachable QT.init
  | reach_open_path (e : Env) (path : Path) (s s' : QT.ImageViewer) :
      reachable s -> QT.open_path e path s = Some s' -> reachable s'
  | reach_load_files (e : Env) (fl : list Path) (s : QT.ImageViewer) :
      reachable s -> reachable (QT.load_files e fl s)
  | reach_prev_image (e : Env) (s : QT.ImageViewer) :
      reachable s -> reachable (QT.prev_image e s)
  | reach_next_image (e : Env) (s : QT.ImageViewer) :
      reachable s -> reachable (QT.next_image e s)
  | reach_apply_zoom (e : Env) (factor : float) (s : QT.ImageViewer) :
      reachable s -> reachable (QT.apply_zoom e factor s)
  | reach_reset_zoom (e : Env) (s : QT.ImageViewer) :
      reachable s -> reachable (QT.reset_zoom e s)
  | reach_toggle_fit (e : Env) (s : QT.ImageViewer) :
      reachable s -> reachable (QT.toggle_fit e s)
  | reach_rotate (e : Env) (deg : Z) (s : QT.ImageViewer) :
      reachable s -> reachable (QT.rotate e deg s)
  | reach_after_delete (e : Env) (s s' : QT.ImageViewer) :
      reachable s -> QT.files s <> [] -> QT.after_delete e s = Some s' ->
      reachable s'.

(** ** Names *)

(** No character of [t] is a digit for [isdigit] without being a decimal
    digit: [t] holds none of the superscripts U+00B2, U+00B3, U+00B9. *)
Definition plain_digits (t : string) : bool :=
  all_chars (fun c => implb (is_digit c) (is_decimal c)) t.

(** A name without a dot. *)
Definition no_dot (t : string) : bool :=
  all_chars (fun c => negb (Ascii.eqb c "."%char)) t.

(** An extension as [SUPPORTED_EXTS] and the tuple of [endswith] list
    them: a dot and at least one character, none of them a dot. *)
Definition is_ext (t : string) : bool :=
  match t with
  | String c (String d r) => Ascii.eqb c "."%char && no_dot (String d r)
  | _ => false
  end.

(** ** The buttons of main.py that zoom *)

Inductive zoom_button : Type :=
  | ZoomIn
  | ZoomOut
  | Fit.

Definition press (b : zoom_button) (s : GTK.ImageViewer) : GTK.ImageViewer :=
  match b with
  | ZoomIn => GTK.on_zoom_in s
  | ZoomOut => GTK.on_zoom_out s
  | Fit => GTK.on_fit s
  end.

(** ** Sessions of the Qt viewer *)

(** A rotation the two rotate keys can reach. *)
Definition quarter_turn (r : Z) : Prop :=
  r = 0 \/ r = 90 \/ r = 180 \/ r = 270.

(** Whether [delete_current] gets the file [p] deleted, the answer being
    [ans]. *)
Definition deletes (e : Env) (d : QTHandlers.Disk) (ans : QTHandlers.answer)
  (p : Path) : bool :=
  match ans with
  | QTHandlers.Cancel => false
  | QTHandlers.Yes => QTHandlers.move_to_trash d p
  | QTHandlers.No => exists_ e p && QTHandlers.unlink d p
  end.

(** The events that open files; the handlers of all others return. *)
Definition opens (ev : QTHandlers.event) : bool :=
  match ev with
  | QTHandlers.OpenPath _ | QTHandlers.OpenFolder _ | QTHandlers.Drop _ => true
  | _ => false
  end.

(** ** Sample states and surroundings *)

(** Surroundings without directories, in which every file exists and
    decodes. *)
Definition plain_env : Env :=
  {| is_dir := fun _ => false; listdir := fun _ => None;
     exists_ := fun _ => true; resolve := fun p => p;
     decodes := fun _ => true; viewport := (1200, 800) |}.

(** A directory "pics" holding the given names, every file of which exists
    and decodes. *)
Definition pics_env (names : list string) : Env :=
  {| is_dir := fun p => path_eqb p ["pics"%string];
     listdir := fun p =>
       if path_eqb p ["pics"%string] then Some names else None;
     exists_ := fun _ => true;
     resolve := fun p => p;
     decodes := fun _ => true;
     viewport := (1200, 800) |}.

(** A viewer on its only file, after [rotate 90]. *)
Definition turned_viewer : QT.ImageViewer :=
  {| QT.files := [["pics"; "a.png"]%string]; QT.index := 0;
     QT.scale := 1.0; QT.fit_to_window := false; QT.rotation_deg := 90;
     QT.orig_pixmap := Some (["pics"; "a.png"]%string, 0);
     QT.image_label := QT.Shown (["pics"; "a.png"]%string, 0) QT.Intrinsic |}.

(** A viewer on the last of three files. *)
Definition three_files : QT.ImageViewer :=
  {| QT.files := [["pics"; "a.png"]; ["pics"; "b.png"]; ["pics"; "c.png"]]%string;
     QT.index := 2; QT.scale := 1.0; QT.fit_to_window := false;
     QT.rotation_deg := 0; QT.orig_pixmap := None; QT.image_label := QT.Blank |}.

(** The name "1²3.png": the superscript two, U+00B2, between two decimal
    digits. *)
Definition superscript_name : string :=
  String "1" (String (ascii_of_N 178) "3.png").

(** * Properties *)

(** ** What the Qt viewer's rendering leaves alone *)

Create Rewrite HintDb qt_frame.

Section QTFrame.
Variable e : Env.

Lemma update_pixmap_files (s : QT.ImageViewer) :
  QT.files (QT.update_pixmap e s) = QT.files s.
Proof.
  unfold QT.update_pixmap. destruct (QT.orig_pixmap s) eqn:E; cbn; auto.
Qed.

Lemma update_pixmap_index (s : QT.ImageViewer) :
  QT.index (QT.update_pixmap e s) = QT.index s.
Proof.
  unfold QT.update_pixmap. destruct (QT.orig_pixmap s) eqn:E; cbn; auto.
Qed.

Lemma update_pixmap_scale (s : QT.ImageViewer) :
  QT.scale (QT.update_pixmap e s) = QT.scale s.
Proof.
  unfold QT.update_pixmap. destruct (QT.orig_pixmap s) eqn:E; cbn; auto.
Qed.

Lemma update_pixmap_fit_to_window (s : QT.ImageViewer) :
  QT.fit_to_window (QT.update_pixmap e s) = QT.fit_to_window s.
Proof.
  unfold QT.update_pixmap. destruct (QT.orig_pixmap s) eqn:E; cbn; auto.
Qed.

Lemma update_pixmap_rotation_deg (s : QT.ImageViewer) :
  QT.rotation_deg (QT.update_pixmap e s) = QT.rotation_deg s.
Proof.
  unfold QT.update_pixmap. destruct (QT.orig_pixmap s) eqn:E; cbn; auto.
Qed.

Lemma update_pixmap_orig_pixmap (s : QT.ImageViewer) :
  QT.orig_pixmap (QT.update_pixmap e s) = QT.orig_pixmap s.
Proof.
  unfold QT.update_pixmap. destruct (QT.orig_pixmap s) eqn:E; cbn; auto.
Qed.

Hint Rewrite update_pixmap_files update_pixmap_index update_pixmap_scale
  update_pixmap_fit_to_window update_pixmap_rotation_deg
  update_pixmap_orig_pixmap : qt_frame.

Lemma clamp_index_valid (s : QT.ImageViewer) :
  0 <= QT.index s < len (QT.files s) -> clamp_index s = QT.index s.
Proof.
  unfold clamp_index, max, min. intros H.
  destruct (len (QT.files s) - 1 <? QT.index s) eqn:E1;
    [apply Z.ltb_lt in E1; lia|].
  destruct (0 <? QT.index s) eqn:E2; [reflexivity|].
  apply Z.ltb_ge in E2. lia.
Qed.

Lemma clamp_index_range (s : QT.ImageViewer) :
  QT.files s <> [] -> 0 <= clamp_index s < len (QT.files s).
Proof.
  unfold clamp_index, max, min, len. intros H.
  destruct (QT.files s) as [|p l]; [congruence|]. cbn [List.length].
  destruct (_ - 1 <? QT.index s) eqn:E1;
    [apply Z.ltb_lt in E1 | apply Z.ltb_ge in E1];
    match goal with |- context [0 <? ?x] => destruct (0 <? x) eqn:E2 end;
    try apply Z.ltb_lt in E2; try apply Z.ltb_ge in E2; lia.
Qed.

Lemma show_current_files (s : QT.ImageViewer) :
  QT.files (QT.show_current e s) = QT.files s.
Proof.
  unfold QT.show_current. destruct (QT.files s) as [|p l] eqn:E; cbn; auto.
  destruct (decodes e _); autorewrite with qt_frame; cbn; auto.
Qed.

Lemma show_current_fit_to_window (s : QT.ImageViewer) :
  QT.fit_to_window (QT.show_current e s) = QT.fit_to_window s.
Proof.
  unfold QT.show_current. destruct (QT.files s) as [|p l]; cbn; auto.
  destruct (decodes e _); autorewrite with qt_frame; cbn; auto.
Qed.

Lemma show_current_rotation_deg (s : QT.ImageViewer) :
  QT.rotation_deg (QT.show_current e s) = QT.rotation_deg s.
Proof.
  unfold QT.show_current. destruct (QT.files s) as [|p l]; cbn; auto.
  destruct (decodes e _); autorewrite with qt_frame; cbn; auto.
Qed.

Lemma show_current_index (s : QT.ImageViewer) :
  QT.files s <> [] -> QT.index (QT.show_current e s) = clamp_index s.
Proof.
  unfold QT.show_current, clamp_index.
  destruct (QT.files s) as [|p l] eqn:E; [congruence|]. intros _. cbn.
  destruct (decodes e _); autorewrite with qt_frame; cbn; auto.
Qed.

Lemma show_current_scale (s : QT.ImageViewer) (p : Path) :
  shown_file s = Some p ->
  QT.scale (QT.show_current e s) =
    if decodes e p then 1.0%float else QT.scale s.
Proof.
  unfold shown_file, QT.show_current, clamp_index.
  destruct (QT.files s) as [|f l] eqn:E.
  - destruct (Z.to_nat _); discriminate.
  - intros H. cbn [QT.index QT.files QT.set_index]. rewrite E.
    rewrite (nth_error_nth _ _ f H).
    destruct (decodes e p); autorewrite with qt_frame; cbn; auto.
Qed.
End QTFrame.

#[local] Hint Rewrite update_pixmap_files update_pixmap_index
  update_pixmap_scale update_pixmap_fit_to_window update_pixmap_rotation_deg
  update_pixmap_orig_pixmap show_current_files show_current_fit_to_window
  show_current_rotation_deg : qt_frame.

(** ** Navigation *)

Lemma mod_succ_pred (n i : Z) :
  0 <= i < n -> ((i + 1) mod n - 1) mod n = i.
Proof.
  intros H. destruct (Z.eq_dec (i + 1) n) as [E|E].
  - rewrite E, Z_mod_same_full. symmetry.
    apply (Z.mod_unique (0 - 1) n (-1) i); lia.
  - rewrite (Z.mod_small (i + 1) n) by lia.
    replace (i + 1 - 1) with i by lia. apply Z.mod_small; lia.
Qed.

Lemma mod_pred_succ (n i : Z) :
  0 <= i < n -> ((i - 1) mod n + 1) mod n = i.
Proof.
  intros H. destruct (Z.eq_dec i 0) as [E|E].
  - subst i. replace ((0 - 1) mod n) with (n - 1).
    + replace (n - 1 + 1) with n by lia. apply Z_mod_same_full.
    + apply (Z.mod_unique (0 - 1) n (-1) (n - 1)); lia.
  - rewrite (Z.mod_small (i - 1) n) by lia.
    replace (i - 1 + 1) with i by lia. apply Z.mod_small; lia.
Qed.

Lemma len_pos {A : Type} (l : list A) : l <> [] -> 0 < len l.
Proof. destruct l; [congruence|]. unfold len. cbn [List.length]. lia. Qed.

Section QTNavigation.
Variable e : Env.

Lemma next_image_files (s : QT.ImageViewer) :
  QT.files (QT.next_image e s) = QT.files s.
Proof.
  unfold QT.next_image. destruct (QT.files s) eqn:E; auto.
  autorewrite with qt_frame. exact E.
Qed.

Lemma prev_image_files (s : QT.ImageViewer) :
  QT.files (QT.prev_image e s) = QT.files s.
Proof.
  unfold QT.prev_image. destruct (QT.files s) eqn:E; auto.
  autorewrite with qt_frame. exact E.
Qed.

Lemma next_image_index (s : QT.ImageViewer) :
  QT.files s <> [] ->
  QT.index (QT.next_image e s) = (QT.index s + 1) mod len (QT.files s).
Proof.
  intros H. pose proof (len_pos _ H) as Hn. unfold QT.next_image.
  destruct (QT.files s) as [|p l] eqn:E; [congruence|].
  rewrite show_current_index by (cbn; congruence).
  rewrite clamp_index_valid; cbn; rewrite ?E; auto.
  apply Z.mod_pos_bound; exact Hn.
Qed.

Lemma prev_image_index (s : QT.ImageViewer) :
  QT.files s <> [] ->
  QT.index (QT.prev_image e s) = (QT.index s - 1) mod len (QT.files s).
Proof.
  intros H. pose proof (len_pos _ H) as Hn. unfold QT.prev_image.
  destruct (QT.files s) as [|p l] eqn:E; [congruence|].
  rewrite show_current_index by (cbn; congruence).
  rewrite clamp_index_valid; cbn; rewrite ?E; auto.
  apply Z.mod_pos_bound; exact Hn.
Qed.

(** After a step the index is a position of the list, so the file under
    it is the one [show_current] decoded. *)
Lemma step_scale (s : QT.ImageViewer) (i : Z) (f : Path) :
  0 <= i < len (QT.files s) ->
  nth_error (QT.files s) (Z.to_nat i) = Some f ->
  QT.scale (QT.show_current e (QT.set_index i s)) =
    if decodes e f then 1.0%float else QT.scale s.
Proof.
  intros Hi Hf.
  rewrite (show_current_scale e (QT.set_index i s) f); [reflexivity|].
  unfold shown_file. rewrite clamp_index_valid; cbn; auto.
Qed.

(** With an empty list no index is a position of it. *)
Lemma no_position_of_empty (i : Z) :
  (0 <=? i) && (i <? len (@nil Path)) = false.
Proof.
  unfold len. cbn. destruct (0 <=? i) eqn:E1; [|reflexivity].
  destruct (i <? 0) eqn:E2; [|reflexivity].
  apply Z.leb_le in E1. apply Z.ltb_lt in E2. lia.
Qed.

(** The scale after a step [step] of the viewer [s], the file under the new
    index being known; [Hfiles] and [Hidx] tell the files and the index the
    step leaves. *)
Ltac scale_after_step step s Hfiles Hidx :=
  let E := fresh "E" in
  let Hb := fresh "Hb" in
  let H1 := fresh "H1" in
  let H2 := fresh "H2" in
  let Hf := fresh "Hf" in
  let p := fresh "p" in
  let l := fresh "l" in
  unfold current; rewrite Hfiles;
  destruct (QT.files s) as [|p l] eqn:E;
  [ rewrite no_position_of_empty; discriminate
  | rewrite Hidx by congruence; rewrite E;
    destruct (andb _ _) eqn:Hb; [|discriminate]; intros Hf;
    apply andb_prop in Hb; destruct Hb as [H1 H2];
    apply Z.leb_le in H1; apply Z.ltb_lt in H2;
    unfold step; rewrite E; rewrite <- E;
    apply step_scale; rewrite E; auto ].

Lemma next_image_scale (s : QT.ImageViewer) (f : Path) :
  current (QT.next_image e s) = Some f ->
  QT.scale (QT.next_image e s) =
    if decodes e f then 1.0%float else QT.scale s.
Proof. scale_after_step QT.next_image s next_image_files next_image_index. Qed.

Lemma prev_image_scale (s : QT.ImageViewer) (f : Path) :
  current (QT.prev_image e s) = Some f ->
  QT.scale (QT.prev_image e s) =
    if decodes e f then 1.0%float else QT.scale s.
Proof. scale_after_step QT.prev_image s prev_image_files prev_image_index. Qed.
End QTNavigation.

(** C8. In the Qt viewer, for a non-empty list of files and an index that is
    a position of it, [next_image] moves the index to its successor modulo
    the length of the list, and [prev_image] after [next_image] puts the
    index back where it was, the list being untouched; [next_image] after
    [prev_image] does the same. *)
Theorem next_then_prev_restores_index (e : Env) (s : QT.ImageViewer) :
  QT.files s <> [] ->
  0 <= QT.index s < len (QT.files s) ->
  QT.index (QT.next_image e s) = (QT.index s + 1) mod len (QT.files s) /\
  QT.index (QT.prev_image e (QT.next_image e s)) = QT.index s /\
  QT.files (QT.prev_image e (QT.next_image e s)) = QT.files s /\
  QT.index (QT.next_image e (QT.prev_image e s)) = QT.index s.
Proof.
  intros Hne Hi. repeat split.
  - apply next_image_index; exact Hne.
  - rewrite prev_image_index by (rewrite next_image_files; exact Hne).
    rewrite next_image_files, next_image_index by exact Hne.
    apply mod_succ_pred; exact Hi.
  - rewrite prev_image_files. apply next_image_files.
  - rewrite next_image_index by (rewrite prev_image_files; exact Hne).
    rewrite prev_image_files, prev_image_index by exact Hne.
    apply mod_pred_succ; exact Hi.
Qed.

(** The same round trip in the GTK viewers' [on_next] and [on_prev]. *)
Lemma on_next_then_on_prev (s : GTK.ImageViewer) :
  GTK.files s <> [] ->
  0 <= GTK.index s < len (GTK.files s) ->
  GTK.on_prev (GTK.on_next s) = s /\ GTK.on_next (GTK.on_prev s) = s.
Proof.
  intros Hne Hi. unfold GTK.on_prev, GTK.on_next.
  destruct s as [fl i sc]. cbn in *.
  destruct fl as [|p l] eqn:E; [congruence|]. cbn [GTK.files GTK.index GTK.scale].
  rewrite mod_succ_pred, mod_pred_succ by exact Hi. auto.
Qed.

(** C1 as stated fails: after [next_image] the rotation is still 90. *)
Lemma navigation_resets_rotation_counterexample :
  ~ (forall (e : Env) (s : QT.ImageViewer),
        QT.files s <> [] ->
        QT.rotation_deg (QT.next_image e s) = 0 /\
        QT.scale (QT.next_image e s) = 1.0%float).
Proof.
  intros H.
  destruct (H plain_env turned_viewer) as [Hr _]; [discriminate|].
  vm_compute in Hr. discriminate.
Qed.

(** C1, amended. In the Qt viewer, for a non-empty list of files,
    [next_image] and [prev_image] leave [rotation_deg] and [fit_to_window]
    as they were, and set [scale] to 1.0 when the file now under the index
    decodes (and leave it as it was when that file does not decode). *)
Theorem navigation_resets_scale_keeps_rotation
  (e : Env) (s : QT.ImageViewer) :
  QT.files s <> [] ->
  (QT.rotation_deg (QT.next_image e s) = QT.rotation_deg s /\
   QT.fit_to_window (QT.next_image e s) = QT.fit_to_window s /\
   exists f, current (QT.next_image e s) = Some f /\
     QT.scale (QT.next_image e s) =
       if decodes e f then 1.0%float else QT.scale s) /\
  (QT.rotation_deg (QT.prev_image e s) = QT.rotation_deg s /\
   QT.fit_to_window (QT.prev_image e s) = QT.fit_to_window s /\
   exists f, current (QT.prev_image e s) = Some f /\
     QT.scale (QT.prev_image e s) =
       if decodes e f then 1.0%float else QT.scale s).
Proof.
  intros Hne. pose proof (len_pos _ Hne) as Hn.
  assert (Hcur : forall t, QT.files t = QT.files s ->
                   0 <= QT.index t < len (QT.files s) ->
                   exists f, current t = Some f).
  { intros t Hf [H1 H2]. unfold current. rewrite Hf.
    apply Z.leb_le in H1 as H1'. apply Z.ltb_lt in H2 as H2'.
    rewrite H1', H2'. cbn.
    destruct (nth_error (QT.files s) (Z.to_nat (QT.index t))) eqn:E; eauto.
    apply nth_error_None in E. unfold len in H2. lia. }
  split.
  - unfold QT.next_image at 1 2.
    destruct (QT.files s) as [|p l] eqn:E; [congruence|].
    autorewrite with qt_frame. cbn. repeat split.
    destruct (Hcur (QT.next_image e s)) as [f Hf].
    + rewrite next_image_files. exact E.
    + rewrite next_image_index, E by congruence. apply Z.mod_pos_bound. exact Hn.
    + exists f. split; [exact Hf|]. apply next_image_scale. exact Hf.
  - unfold QT.prev_image at 1 2.
    destruct (QT.files s) as [|p l] eqn:E; [congruence|].
    autorewrite with qt_frame. cbn. repeat split.
    destruct (Hcur (QT.prev_image e s)) as [f Hf].
    + rewrite prev_image_files. exact E.
    + rewrite prev_image_index, E by congruence. apply Z.mod_pos_bound. exact Hn.
    + exists f. split; [exact Hf|]. apply prev_image_scale. exact Hf.
Qed.

(** On the viewer turned by a quarter: the rotation stays at 90 and the
    scale is 1.0 after [next_image]. *)
Lemma navigation_resets_scale_keeps_rotation_witness :
  QT.rotation_deg (QT.next_image plain_env turned_viewer) = 90 /\
  QT.scale (QT.next_image plain_env turned_viewer) = 1.0%float.
Proof.
  destruct (navigation_resets_scale_keeps_rotation plain_env turned_viewer)
    as [(Hr & _ & f & Hf & Hs) _]; [discriminate|].
  split; [exact Hr|].
  rewrite Hs. reflexivity.
Defined.

(** The GTK viewers keep [scale] across [on_next] and [on_prev]. *)
Lemma on_next_keeps_scale (s : GTK.ImageViewer) :
  GTK.scale (GTK.on_next s) = GTK.scale s /\
  GTK.scale (GTK.on_prev s) = GTK.scale s.
Proof.
  unfold GTK.on_next, GTK.on_prev. destruct (GTK.files s); auto.
Qed.

(** From the last of three files [next_image] wraps to the first, and
    [prev_image] comes back to the last. *)
Lemma next_then_prev_restores_index_witness :
  QT.index (QT.next_image plain_env three_files) = 0 /\
  QT.index (QT.prev_image plain_env (QT.next_image plain_env three_files)) = 2.
Proof.
  destruct (next_then_prev_restores_index plain_env three_files)
    as (Hn & Hp & _); [discriminate | vm_compute; split; congruence |].
  split; [rewrite Hn; reflexivity | exact Hp].
Defined.

(** ** Rotation *)

Section QTRotation.
Variable e : Env.

Lemma rotate_rotation_deg (deg : Z) (s : QT.ImageViewer) :
  QT.rotation_deg (QT.rotate e deg s) = (QT.rotation_deg s + deg) mod 360.
Proof.
  unfold QT.rotate. cbn. destruct (QT.orig_pixmap s);
    autorewrite with qt_frame; reflexivity.
Qed.

Lemma rotate_frame (deg : Z) (s : QT.ImageViewer) :
  QT.files (QT.rotate e deg s) = QT.files s /\
  QT.index (QT.rotate e deg s) = QT.index s /\
  QT.scale (QT.rotate e deg s) = QT.scale s /\
  QT.fit_to_window (QT.rotate e deg s) = QT.fit_to_window s.
Proof.
  unfold QT.rotate. cbn. destruct (QT.orig_pixmap s);
    autorewrite with qt_frame; auto.
Qed.
End QTRotation.

(** C9. For a rotation in [0, 360) and any integer [deg], negative ones
    included, [rotate] leaves in [rotation_deg] the one value of [0, 360)
    that differs from [rotation_deg + deg] by a multiple of 360; four calls
    of [rotate 90] give back the rotation they started from, 0 when started
    from 0. *)
Theorem rotate_normalizes (e : Env) (s : QT.ImageViewer) (deg : Z) :
  0 <= QT.rotation_deg s < 360 ->
  0 <= QT.rotation_deg (QT.rotate e deg s) < 360 /\
  (exists k, QT.rotation_deg (QT.rotate e deg s)
             = QT.rotation_deg s + deg + 360 * k) /\
  QT.rotation_deg
    (QT.rotate e 90 (QT.rotate e 90 (QT.rotate e 90 (QT.rotate e 90 s))))
  = QT.rotation_deg s.
Proof.
  intros Hr. rewrite !rotate_rotation_deg. repeat split.
  - apply Z.mod_pos_bound; lia.
  - apply Z.mod_pos_bound; lia.
  - exists (- ((QT.rotation_deg s + deg) / 360)).
    rewrite Z.mod_eq by lia. lia.
  - Z.div_mod_to_equations. lia.
Qed.

(** From 0 a rotation by -90 gives 270, and four rotations by 90 give 0. *)
Lemma rotate_normalizes_witness :
  QT.rotation_deg (QT.rotate plain_env (-90) three_files) = 270 /\
  QT.rotation_deg
    (QT.rotate plain_env 90 (QT.rotate plain_env 90
       (QT.rotate plain_env 90 (QT.rotate plain_env 90 three_files)))) = 0.
Proof.
  destruct (rotate_normalizes plain_env three_files (-90))
    as (_ & _ & H4); [vm_compute; split; congruence|].
  split; [reflexivity | exact H4].
Defined.

(** ** Fit to window *)

(** C7. In the Qt viewer [toggle_fit] flips [fit_to_window] and leaves the
    list of files, the index, [scale] and [rotation_deg] as they were; two
    calls of [toggle_fit] give the state that rendering the starting state
    again gives, so the picture is back at the stored [scale]. *)
Theorem toggle_fit_keeps_scale (e : Env) (s : QT.ImageViewer) :
  QT.fit_to_window (QT.toggle_fit e s) = negb (QT.fit_to_window s) /\
  QT.scale (QT.toggle_fit e s) = QT.scale s /\
  QT.files (QT.toggle_fit e s) = QT.files s /\
  QT.index (QT.toggle_fit e s) = QT.index s /\
  QT.rotation_deg (QT.toggle_fit e s) = QT.rotation_deg s /\
  QT.orig_pixmap (QT.toggle_fit e s) = QT.orig_pixmap s /\
  QT.toggle_fit e (QT.toggle_fit e s) = QT.update_pixmap e s.
Proof.
  unfold QT.toggle_fit. autorewrite with qt_frame. cbn. repeat split.
  destruct s as [fl i sc fit rot pm lbl].
  unfold QT.update_pixmap, QT.set_fit_to_window, QT.set_image_label.
  cbn. destruct pm as [pm|]; cbn; rewrite negb_involutive; reflexivity.
Qed.

(** In fit mode [update_pixmap] hands the viewport less 24 pixels each way
    to the toolkit's [scaled], whatever [scale] holds. *)
Lemma update_pixmap_fit_mode (e : Env) (s : QT.ImageViewer) (pm : Path * Z) :
  QT.fit_to_window s = true ->
  QT.orig_pixmap s = Some pm ->
  0 < fst (viewport e) - 24 -> 0 < snd (viewport e) - 24 ->
  QT.image_label (QT.update_pixmap e s)
  = QT.Shown pm (QT.Fitted (fst (viewport e) - 24) (snd (viewport e) - 24)).
Proof.
  intros Hfit Hpm Hw Hh. unfold QT.update_pixmap. rewrite Hpm, Hfit. cbn.
  apply Z.ltb_lt in Hw, Hh. rewrite Hw, Hh. reflexivity.
Qed.

(** The GTK viewers have no fit mode to switch: their [on_fit] stores 1.0
    in [scale], whatever it was. *)
Lemma on_fit_resets_scale (s : GTK.ImageViewer) :
  GTK.scale (GTK.on_fit s) = 1.0%float /\
  GTK.files (GTK.on_fit s) = GTK.files s /\
  GTK.index (GTK.on_fit s) = GTK.index s.
Proof. unfold GTK.on_fit. cbn. auto. Qed.

(** ** Removing the current file *)

(** [after_delete] on a list of one file, the index on it. *)
Lemma after_delete_single_leaves_zero_at
  (e : Env) (p : Path) (s : QT.ImageViewer) :
  QT.files s = [p] -> QT.index s = 0 ->
  exists s' : QT.ImageViewer,
    QT.after_delete e s = Some s' /\ QT.files s' = [] /\ QT.index s' = 0.
Proof.
  intros Hf Hi. unfold QT.after_delete. rewrite Hf, Hi. cbn.
  eexists. split; [reflexivity|]. cbn. rewrite Hi. auto.
Qed.

(** C2 at a list of one file: [after_delete] leaves the list empty and the
    index at 0, where [__init__] and [load_files] put -1 for an empty
    list. *)
Theorem after_delete_single_leaves_zero
  (e : Env) (p : Path) (sc : float) (fit : bool) (rot : Z)
  (pm : option (Path * Z)) (lbl : QT.label) :
  exists s' : QT.ImageViewer,
    QT.after_delete e
      {| QT.files := [p]; QT.index := 0; QT.scale := sc;
         QT.fit_to_window := fit; QT.rotation_deg := rot;
         QT.orig_pixmap := pm; QT.image_label := lbl |} = Some s' /\
    QT.files s' = [] /\ QT.index s' = 0 /\
    QT.index (QT.load_files e [] QT.init) = -1.
Proof. eexists. split; [reflexivity|]. cbn. auto. Qed.

(** When a file is left, [after_delete] puts the index on a position of the
    list that is left. *)
Lemma after_delete_index_in_range (e : Env) (s s' : QT.ImageViewer) :
  QT.after_delete e s = Some s' ->
  QT.files s' <> [] ->
  0 <= QT.index s' < len (QT.files s').
Proof.
  unfold QT.after_delete. destruct (pop _ _) as [[x rest]|]; [|discriminate].
  cbn. intros H. injection H as <-. autorewrite with qt_frame. cbn.
  intros Hne. rewrite show_current_index by exact Hne.
  apply (clamp_index_range
           (QT.set_index (max 0 (min (QT.index s) (len rest - 1)))
              (QT.set_files rest s))).
  exact Hne.
Qed.

(** ** The order of the sort keys *)

Lemma all_chars_app (f : ascii -> bool) (s t : string) :
  all_chars f (s ++ t) = all_chars f s && all_chars f t.
Proof.
  induction s as [|c s IH]; cbn; [reflexivity|].
  rewrite IH. apply andb_assoc.
Qed.

Lemma app_not_empty (s : string) (c : ascii) :
  String.eqb (s ++ String c EmptyString) EmptyString = false.
Proof. destruct s; reflexivity. Qed.

Lemma re_split_digits_from_ok (s cur : string) (in_run : bool) :
  (if in_run
   then negb (String.eqb cur EmptyString) && all_chars is_decimal cur
   else all_chars (fun c => negb (is_decimal c)) cur) = true ->
  pieces_ok in_run (re_split_digits_from cur in_run s) = true.
Proof.
  revert cur in_run.
  induction s as [|c s IH]; intros cur in_run Hcur.
  - destruct in_run; cbn; rewrite Hcur; reflexivity.
  - cbn [re_split_digits_from].
    destruct (is_decimal c) eqn:Ec, in_run; cbn [Bool.eqb negb].
    + apply IH. rewrite all_chars_app, app_not_empty. cbn.
      apply andb_prop in Hcur. destruct Hcur as [_ ->]. rewrite Ec. reflexivity.
    + cbn [pieces_ok]. rewrite Hcur. cbn. apply IH. cbn. rewrite Ec. reflexivity.
    + cbn [pieces_ok]. rewrite Hcur. cbn. apply IH. cbn. rewrite Ec. reflexivity.
    + apply IH. rewrite all_chars_app, Hcur. cbn. rewrite Ec. reflexivity.
Qed.

Lemma re_split_digits_ok (s : string) :
  pieces_ok false (re_split_digits s) = true.
Proof. apply re_split_digits_from_ok. reflexivity. Qed.

Lemma is_decimal_is_digit (c : ascii) :
  is_decimal c = true -> is_digit c = true.
Proof. unfold is_digit. intros ->. reflexivity. Qed.

Lemma all_decimal_isdigit (t : string) :
  String.eqb t EmptyString = false -> all_chars is_decimal t = true ->
  isdigit t = true.
Proof.
  destruct t as [|c t]; [discriminate|]. intros _ H. unfold isdigit.
  revert H. generalize (String c t). intros u.
  induction u as [|d u IH]; cbn; [reflexivity|].
  intros H. apply andb_prop in H. destruct H as [Hd Hu].
  rewrite (is_decimal_is_digit _ Hd), (IH Hu). reflexivity.
Qed.

Lemma int_digits_some (t : string) (acc : Z) :
  all_chars is_decimal t = true -> exists n, int_digits acc t = Some n.
Proof.
  revert acc. induction t as [|c t IH]; intros acc H; cbn in *; eauto.
  apply andb_prop in H. destruct H as [-> Ht]. apply IH. exact Ht.
Qed.

(** A piece of text without decimal digits becomes a [str], or raises. *)
Lemma key_of_text (t : string) (x : key_elem) :
  all_chars (fun c => negb (is_decimal c)) t = true ->
  key_of_piece t = Some x -> is_int x = false.
Proof.
  unfold key_of_piece. intros Ht. destruct (isdigit t) eqn:Ed.
  - destruct t as [|c t]; [discriminate|].
    cbn in Ht. apply andb_prop in Ht. destruct Ht as [Hc _].
    apply negb_true_iff in Hc. cbn. rewrite Hc. discriminate.
  - intros H. injection H as <-. reflexivity.
Qed.

(** A run of decimal digits becomes an [int]. *)
Lemma key_of_run (t : string) :
  String.eqb t EmptyString = false -> all_chars is_decimal t = true ->
  exists n, key_of_piece t = Some (KInt n).
Proof.
  intros Hne Ht. unfold key_of_piece. rewrite all_decimal_isdigit by auto.
  destruct t as [|c t]; [discriminate|].
  destruct (int_digits_some (String c t) 0 Ht) as [n Hn].
  exists n. unfold int. rewrite Hn. reflexivity.
Qed.

Lemma comprehension_shape (l : list string) (b : bool) (k : list key_elem) :
  pieces_ok b l = true ->
  comprehension key_of_piece l = Some k -> shape b k = true.
Proof.
  revert b k. induction l as [|t l IH]; intros b k Hok Hk; cbn in *.
  - injection Hk as <-. reflexivity.
  - apply andb_prop in Hok. destruct Hok as [Ht Hl].
    destruct (key_of_piece t) as [x|] eqn:Ex; [|discriminate]. cbn in Hk.
    destruct (comprehension key_of_piece l) as [k'|] eqn:Ek; [|discriminate].
    cbn in Hk. injection Hk as <-. cbn. rewrite (IH _ _ Hl eq_refl).
    destruct b.
    + apply andb_prop in Ht. destruct Ht as [Hne Hd].
      apply negb_true_iff in Hne.
      destruct (key_of_run t Hne Hd) as [n Hn].
      rewrite Hn in Ex. injection Ex as <-. reflexivity.
    + rewrite (key_of_text t x Ht Ex). reflexivity.
Qed.

Lemma human_sort_key_shape (p : Path) (k : list key_elem) :
  human_sort_key p = Some k -> shape false k = true.
Proof. apply comprehension_shape, re_split_digits_ok. Qed.

Lemma shape_nth (k : list key_elem) (b : bool) :
  shape b k = true ->
  forall (i : nat) (x : key_elem),
    nth_error k i = Some x -> is_int x = xorb b (Nat.odd i).
Proof.
  revert b. induction k as [|y k IH]; intros b H i x Hi.
  - destruct i; discriminate.
  - cbn in H. apply andb_prop in H. destruct H as [Hy Hk].
    destruct i as [|i]; cbn in Hi.
    + injection Hi as <-. apply eqb_prop in Hy. rewrite Hy.
      destruct b; reflexivity.
    + rewrite (IH _ Hk i x Hi). rewrite Nat.odd_succ, <- Nat.negb_odd.
      destruct b, (Nat.odd i); reflexivity.
Qed.

(** *** Elements of the same type *)

Lemma string_ltb_lt (s t : string) :
  String.ltb s t = true <-> String_as_OT.lt s t.
Proof.
  unfold String.ltb. rewrite <- String_as_OT.cmp_lt. unfold String_as_OT.cmp.
  destruct (String.compare s t); split; congruence.
Qed.

Lemma elem_eqb_eq (x y : key_elem) : elem_eqb x y = true <-> x = y.
Proof.
  destruct x as [n|s], y as [m|t]; cbn; split; try congruence.
  - intros H. apply Z.eqb_eq in H. congruence.
  - intros H. injection H as ->. apply Z.eqb_refl.
  - intros H. apply String.eqb_eq in H. congruence.
  - intros H. injection H as ->. apply String.eqb_refl.
Qed.

Lemma elem_lt_total (x y : key_elem) :
  is_int x = is_int y -> exists c, elem_lt x y = Some c.
Proof. destruct x, y; cbn; intros H; try discriminate; eauto. Qed.

Lemma elem_lt_asym (x y : key_elem) :
  elem_lt x y = Some true -> elem_lt y x = Some false /\ elem_eqb y x = false.
Proof.
  destruct x as [n|s], y as [m|t]; cbn; try discriminate; intros H;
    injection H as H.
  - apply Z.ltb_lt in H. split.
    + f_equal. apply Z.ltb_ge. lia.
    + apply Z.eqb_neq. lia.
  - pose proof (proj1 (string_ltb_lt s t) H) as Hlt. split.
    + f_equal. unfold String.ltb in *. rewrite String.compare_antisym.
      destruct (String.compare s t); try discriminate; reflexivity.
    + apply String.eqb_neq. intros ->.
      apply (String_as_OT.lt_not_eq _ _ Hlt). reflexivity.
Qed.

Lemma elem_lt_trichotomy (x y : key_elem) :
  is_int x = is_int y -> elem_eqb x y = false ->
  elem_lt y x = Some false -> elem_lt x y = Some true.
Proof.
  destruct x as [n|s], y as [m|t]; cbn; try discriminate; intros _ He H;
    injection H as H; f_equal.
  - apply Z.eqb_neq in He. apply Z.ltb_ge in H. apply Z.ltb_lt. lia.
  - unfold String.ltb in *. rewrite String.compare_antisym.
    destruct (String.compare t s) eqn:E; try discriminate; [|reflexivity].
    apply String.compare_eq_iff in E. subst.
    rewrite String.eqb_refl in He. discriminate.
Qed.

Lemma elem_lt_trans (x y z : key_elem) :
  elem_lt x y = Some true -> elem_lt y z = Some true ->
  elem_lt x z = Some true.
Proof.
  destruct x as [n|s], y as [m|t], z as [o|u]; cbn; try discriminate;
    intros H1 H2; injection H1 as H1; injection H2 as H2; f_equal.
  - apply Z.ltb_lt in H1, H2. apply Z.ltb_lt. lia.
  - apply string_ltb_lt in H1, H2. apply string_ltb_lt.
    eapply String_as_OT.lt_trans; eassumption.
Qed.

(** *** Keys of the same shape *)

Lemma shape_cons (b : bool) (x : key_elem) (k : list key_elem) :
  shape b (x :: k) = true -> is_int x = b /\ shape (negb b) k = true.
Proof.
  cbn. intros H. apply andb_prop in H. destruct H as [H1 H2].
  apply eqb_prop in H1. auto.
Qed.

Lemma list_lt_total (a b : list key_elem) (w : bool) :
  shape w a = true -> shape w b = true -> exists c, list_lt a b = Some c.
Proof.
  revert b w. induction a as [|x a IH]; intros [|y b] w Ha Hb; cbn; eauto.
  apply shape_cons in Ha, Hb. destruct Ha as [Hx Ha], Hb as [Hy Hb].
  destruct (elem_eqb x y); [eauto|].
  apply elem_lt_total. congruence.
Qed.

Lemma list_lt_irrefl (a : list key_elem) : list_lt a a = Some false.
Proof.
  induction a as [|x a IH]; cbn; [reflexivity|].
  rewrite (proj2 (elem_eqb_eq x x) eq_refl). exact IH.
Qed.

Lemma list_lt_asym (a b : list key_elem) :
  list_lt a b = Some true -> list_lt b a = Some false.
Proof.
  revert b. induction a as [|x a IH]; intros [|y b]; cbn; try congruence.
  destruct (elem_eqb x y) eqn:E.
  - apply elem_eqb_eq in E. subst y.
    rewrite (proj2 (elem_eqb_eq x x) eq_refl). apply IH.
  - intros H. apply elem_lt_asym in H. destruct H as [H1 H2].
    rewrite H2. exact H1.
Qed.

(** [a <= b] read as "not [b < a]" is transitive on keys of one shape. *)
Lemma list_le_trans (a b c : list key_elem) (w : bool) :
  shape w a = true -> shape w b = true -> shape w c = true ->
  list_lt b a = Some false -> list_lt c b = Some false ->
  list_lt c a = Some false.
Proof.
  revert b c w.
  induction a as [|x a IH]; intros [|y b] [|z c] w Ha Hb Hc; cbn;
    try congruence.
  apply shape_cons in Ha, Hb, Hc.
  destruct Ha as [Hx Ha], Hb as [Hy Hb], Hc as [Hz Hc].
  destruct (elem_eqb y x) eqn:Eyx.
  - apply elem_eqb_eq in Eyx. subst y.
    destruct (elem_eqb z x) eqn:Ezx; [|auto]. apply (IH b c (negb w)); auto.
  - intros Hyx. apply elem_lt_trichotomy in Hyx;
      [|congruence | destruct (elem_eqb x y) eqn:E; auto;
                     apply elem_eqb_eq in E; subst;
                     rewrite (proj2 (elem_eqb_eq y y) eq_refl) in Eyx;
                     discriminate].
    destruct (elem_eqb z y) eqn:Ezy.
    + apply elem_eqb_eq in Ezy. subst z. intros _.
      rewrite Eyx. apply elem_lt_asym in Hyx. tauto.
    + intros Hzy. apply elem_lt_trichotomy in Hzy;
        [|congruence | destruct (elem_eqb y z) eqn:E; auto;
                       apply elem_eqb_eq in E; subst;
                       rewrite (proj2 (elem_eqb_eq z z) eq_refl) in Ezy;
                       discriminate].
      pose proof (elem_lt_trans _ _ _ Hyx Hzy) as Hxz.
      apply elem_lt_asym in Hxz. destruct Hxz as [H1 H2].
      rewrite H2. exact H1.
Qed.

(** On keys of one shape Python's [<] is the natural order. *)
Lemma list_lt_natural (a b : list key_elem) (w : bool) :
  shape w a = true -> shape w b = true ->
  list_lt a b = Some true <-> natural_lt a b.
Proof.
  revert b w. induction a as [|x a IH]; intros [|y b] w Ha Hb; cbn.
  - split; [discriminate | intros H; inversion H].
  - split; [constructor | reflexivity].
  - split; [discriminate | intros H; inversion H].
  - apply shape_cons in Ha, Hb. destruct Ha as [Hx Ha], Hb as [Hy Hb].
    destruct (elem_eqb x y) eqn:E.
    + apply elem_eqb_eq in E. subst y. rewrite (IH b (negb w) Ha Hb). split.
      * apply natural_next.
      * intros H. inversion H; subst; auto.
        -- lia.
        -- exfalso. eapply String_as_OT.lt_not_eq; eauto. reflexivity.
    + split.
      * destruct x as [n|s], y as [m|t]; cbn; try discriminate; intros H;
          injection H as H.
        -- apply natural_digits. apply Z.ltb_lt. exact H.
        -- apply natural_text. apply string_ltb_lt. exact H.
      * intros H. inversion H; subst; cbn.
        -- f_equal. apply Z.ltb_lt. assumption.
        -- f_equal. apply string_ltb_lt. assumption.
        -- match goal with
           | E : elem_eqb ?u ?u = false |- _ =>
               rewrite (proj2 (elem_eqb_eq u u) eq_refl) in E
           end.
           discriminate.
Qed.

(** ** [sorted]: it returns, permutes and orders *)

Section SortedFacts.
Context {A K : Type}.
Variable lt : K -> K -> option bool.
Variable good : K -> Prop.
Hypothesis lt_total :
  forall a b, good a -> good b -> exists c, lt a b = Some c.
Hypothesis lt_asym :
  forall a b, good a -> good b -> lt a b = Some true -> lt b a = Some false.
Hypothesis le_trans :
  forall a b c, good a -> good b -> good c ->
    lt b a = Some false -> lt c b = Some false -> lt c a = Some false.

Lemma insert_returns (x : K * A) (l : list (K * A)) :
  good (fst x) -> (good_keys good) l -> exists l', insert lt x l = Some l'.
Proof.
  intros Hx Hl. induction Hl as [|y l Hy Hl IH]; cbn; eauto.
  destruct (lt_total _ _ Hx Hy) as [[|] ->]; cbn; eauto.
  destruct IH as [l' ->]. cbn. eauto.
Qed.

Lemma insert_permutation (x : K * A) (l l' : list (K * A)) :
  insert lt x l = Some l' -> Permutation (x :: l) l'.
Proof.
  revert l'. induction l as [|y l IH]; intros l'; cbn.
  - intros H. injection H as <-. reflexivity.
  - destruct (lt (fst x) (fst y)) as [[|]|]; cbn; try discriminate.
    + intros H. injection H as <-. reflexivity.
    + destruct (insert lt x l) as [l''|]; cbn; [|discriminate].
      intros H. injection H as <-.
      rewrite perm_swap. apply perm_skip. apply IH. reflexivity.
Qed.

Lemma insert_good (x : K * A) (l l' : list (K * A)) :
  good (fst x) -> (good_keys good) l -> insert lt x l = Some l' -> (good_keys good) l'.
Proof.
  intros Hx Hl H. unfold good_keys.
  eapply Permutation_Forall; [apply insert_permutation; exact H|].
  constructor; assumption.
Qed.

Lemma insert_sorted (x : K * A) (l l' : list (K * A)) :
  good (fst x) -> (good_keys good) l -> StronglySorted (key_le lt) l ->
  insert lt x l = Some l' -> StronglySorted (key_le lt) l'.
Proof.
  intros Hx Hl Hs. revert l'.
  induction Hs as [|y l Hs IH Hy]; intros l'; cbn.
  - intros H. injection H as <-. repeat constructor.
  - apply Forall_cons_iff in Hl. destruct Hl as [Hgy Hl].
    destruct (lt (fst x) (fst y)) as [[|]|] eqn:E; cbn; try discriminate.
    + intros H. injection H as <-.
      assert (Hxy : (key_le lt) x y) by (apply lt_asym; assumption).
      constructor; [constructor; assumption|].
      constructor; [exact Hxy|].
      rewrite Forall_forall in *. intros z Hz. unfold key_le in *.
      apply (le_trans (fst x) (fst y) (fst z)); auto.
    + destruct (insert lt x l) as [l''|] eqn:El; cbn; [|discriminate].
      intros H. injection H as <-.
      constructor; [apply IH; auto|].
      eapply Permutation_Forall; [apply insert_permutation; exact El|].
      constructor; assumption.
Qed.

Lemma sort_into_returns (l acc : list (K * A)) :
  (good_keys good) acc -> (good_keys good) l -> exists out, sort_into lt acc l = Some out.
Proof.
  revert acc. induction l as [|x l IH]; intros acc Hacc Hl; cbn; eauto.
  apply Forall_cons_iff in Hl. destruct Hl as [Hx Hl].
  destruct (insert_returns x acc Hx Hacc) as [acc' E]. rewrite E. cbn.
  apply IH; [exact (insert_good x acc acc' Hx Hacc E) | exact Hl].
Qed.

Lemma sort_into_permutation (l acc out : list (K * A)) :
  sort_into lt acc l = Some out -> Permutation (acc ++ l) out.
Proof.
  revert acc. induction l as [|x l IH]; intros acc; cbn.
  - intros H. injection H as <-. rewrite app_nil_r. reflexivity.
  - destruct (insert lt x acc) as [acc'|] eqn:E; cbn; [|discriminate].
    intros H. apply IH in H. rewrite <- H.
    rewrite <- Permutation_middle.
    apply (Permutation_app_tail l (insert_permutation x acc acc' E)).
Qed.

Lemma sort_into_sorted (l acc out : list (K * A)) :
  (good_keys good) acc -> (good_keys good) l -> StronglySorted (key_le lt) acc ->
  sort_into lt acc l = Some out -> StronglySorted (key_le lt) out.
Proof.
  revert acc. induction l as [|x l IH]; intros acc Hacc Hl Hs; cbn.
  - intros H. injection H as <-. exact Hs.
  - apply Forall_cons_iff in Hl. destruct Hl as [Hx Hl].
    destruct (insert lt x acc) as [acc'|] eqn:E; cbn; [|discriminate].
    apply IH; [exact (insert_good x acc acc' Hx Hacc E) | exact Hl|].
    exact (insert_sorted x acc acc' Hx Hacc Hs E).
Qed.

Variable key : A -> option K.
Hypothesis key_good : forall x k, key x = Some k -> good k.

(** The comprehension pairs each element with its key. *)
Lemma keyed_spec (l : list A) (keyed : list (K * A)) :
  comprehension (fun x => k <- key x ;; Some (k, x)) l = Some keyed ->
  map snd keyed = l /\ Forall (fun kx => key (snd kx) = Some (fst kx)) keyed.
Proof.
  revert keyed. induction l as [|x l IH]; intros keyed; cbn.
  - intros H. injection H as <-. auto.
  - destruct (key x) as [k|] eqn:Ek; cbn; [|discriminate].
    destruct (comprehension _ l) as [kl|]; cbn; [|discriminate].
    intros H. injection H as <-. destruct (IH kl eq_refl) as [H1 H2].
    cbn. rewrite H1. auto.
Qed.

Lemma keyed_returns (l : list A) :
  (forall x, In x l -> exists k, key x = Some k) ->
  exists keyed, comprehension (fun x => k <- key x ;; Some (k, x)) l
                = Some keyed.
Proof.
  induction l as [|x l IH]; intros H; cbn; eauto.
  destruct (H x (or_introl eq_refl)) as [k ->]. cbn.
  destruct IH as [kl ->]; [intros y Hy; apply H; right; exact Hy|].
  cbn. eauto.
Qed.

Lemma keyed_good (keyed : list (K * A)) :
  Forall (fun kx => key (snd kx) = Some (fst kx)) keyed -> (good_keys good) keyed.
Proof.
  unfold good_keys. apply Forall_impl. intros kx. apply key_good.
Qed.

(** [sorted] returns when every key is computed. *)
Lemma sorted_returns (l : list A) :
  (forall x, In x l -> exists k, key x = Some k) ->
  exists out, sorted lt key l = Some out.
Proof.
  intros H. unfold sorted. destruct (keyed_returns l H) as [keyed E].
  rewrite E. cbn. destruct (keyed_spec l keyed E) as [_ Hk].
  destruct (sort_into_returns keyed []) as [out ->];
    [constructor | apply keyed_good; exact Hk|].
  cbn. eauto.
Qed.

(** A key that raises makes [sorted] raise. *)
Lemma sorted_raises (l : list A) (x : A) :
  In x l -> key x = None -> sorted lt key l = None.
Proof.
  intros Hin Hx. unfold sorted.
  assert (E : comprehension (fun x => k <- key x ;; Some (k, x)) l = None).
  { induction l as [|y l IH]; [contradiction|]. cbn.
    destruct Hin as [->|Hin].
    - rewrite Hx. reflexivity.
    - destruct (key y); cbn; [|reflexivity]. rewrite (IH Hin). reflexivity. }
  rewrite E. reflexivity.
Qed.

Lemma sorted_spec (l out : list A) :
  sorted lt key l = Some out ->
  Permutation l out /\ StronglySorted (in_order lt key) out.
Proof.
  unfold sorted.
  destruct (comprehension _ l) as [keyed|] eqn:E; cbn; [|discriminate].
  destruct (keyed_spec l keyed E) as [Hl Hk].
  destruct (sort_into lt [] keyed) as [outk|] eqn:Es; cbn; [|discriminate].
  intros H. injection H as <-.
  pose proof (sort_into_permutation _ _ _ Es) as Hp. cbn in Hp. split.
  - rewrite <- Hl. apply Permutation_map. exact Hp.
  - assert (Hok : Forall (fun kx => key (snd kx) = Some (fst kx)) outk)
      by (eapply Permutation_Forall; eassumption).
    assert (Hs : StronglySorted (key_le lt) outk).
    { eapply sort_into_sorted; [constructor | apply keyed_good; exact Hk
                               | constructor | exact Es]. }
    clear - Hok Hs. induction Hs as [|kx outk Hs IH Hle]; cbn; [constructor|].
    apply Forall_cons_iff in Hok. destruct Hok as [Hkx Hok].
    constructor; [apply IH; exact Hok|].
    rewrite Forall_forall in *. intros q Hq.
    apply in_map_iff in Hq. destruct Hq as [ky [<- Hy]].
    exists (fst kx), (fst ky). repeat split; auto. apply (Hle ky Hy).
Qed.
End SortedFacts.

(** ** Sorting the entries of a directory *)

Lemma good_key_total (a b : list key_elem) :
  good_key a -> good_key b -> exists c, list_lt a b = Some c.
Proof. apply list_lt_total. Qed.

Lemma good_key_asym (a b : list key_elem) :
  good_key a -> good_key b ->
  list_lt a b = Some true -> list_lt b a = Some false.
Proof. intros _ _. apply list_lt_asym. Qed.

Lemma good_key_le_trans (a b c : list key_elem) :
  good_key a -> good_key b -> good_key c ->
  list_lt b a = Some false -> list_lt c b = Some false ->
  list_lt c a = Some false.
Proof. apply list_le_trans. Qed.

Lemma in_order_natural_le (p q : Path) :
  in_order list_lt human_sort_key p q -> natural_le p q.
Proof.
  intros (kp & kq & Hp & Hq & H). exists kp, kq. repeat split; auto.
  intros Hn.
  apply (list_lt_natural kq kp false) in Hn;
    [congruence | eapply human_sort_key_shape; eassumption ..].
Qed.

Lemma sorted_paths_returns (l : list Path) :
  (forall p, In p l -> exists k, human_sort_key p = Some k) ->
  exists out, sorted list_lt human_sort_key l = Some out.
Proof.
  apply (sorted_returns list_lt good_key good_key_total human_sort_key).
  intros p k. apply human_sort_key_shape.
Qed.

Lemma sorted_paths_spec (l out : list Path) :
  sorted list_lt human_sort_key l = Some out ->
  Permutation l out /\ StronglySorted natural_le out.
Proof.
  intros H.
  destruct (sorted_spec list_lt good_key good_key_asym good_key_le_trans
              human_sort_key human_sort_key_shape l out H) as [Hp Hs].
  split; [exact Hp|]. clear H Hp.
  induction Hs as [|p out Hs IH Hle]; constructor; [exact IH|].
  revert Hle. apply Forall_impl. intros q. apply in_order_natural_le.
Qed.

Lemma StronglySorted_filter {A : Type} (R : A -> A -> Prop)
  (f : A -> bool) (l : list A) :
  StronglySorted R l -> StronglySorted R (filter f l).
Proof.
  induction 1 as [|x l Hs IH Hx]; cbn; [constructor|].
  destruct (f x); [|exact IH]. constructor; [exact IH|].
  rewrite Forall_forall in *. intros y Hy. apply Hx.
  apply filter_In in Hy. tauto.
Qed.

Lemma Permutation_filter_both {A : Type} (f : A -> bool) (l l' : list A) :
  Permutation l l' -> Permutation (filter f l) (filter f l').
Proof.
  induction 1 as [|x l l' H IH|x y l|l l' l'' H1 IH1 H2 IH2]; cbn.
  - constructor.
  - destruct (f x); auto.
  - destruct (f x), (f y); auto. apply perm_swap.
  - etransitivity; eassumption.
Qed.

Lemma filter_twice {A : Type} (f g : A -> bool) (l : list A) :
  filter g (filter f l) = filter (fun x => f x && g x) l.
Proof.
  induction l as [|x l IH]; cbn; [reflexivity|].
  destruct (f x); cbn; [destruct (g x)|]; rewrite IH; reflexivity.
Qed.

Lemma name_child (dir : Path) (n : string) : name (child dir n) = n.
Proof. unfold name, child. apply last_last. Qed.

Lemma child_injective (dir : Path) (n m : string) :
  child dir n = child dir m -> n = m.
Proof.
  unfold child. intros H. apply app_inv_head in H. congruence.
Qed.

Lemma load_files_files (e : Env) (fl : list Path) (s : QT.ImageViewer) :
  QT.files (QT.load_files e fl s) = filter (exists_ e) fl.
Proof. unfold QT.load_files. rewrite show_current_files. reflexivity. Qed.

(** What [open_path] does with a directory all of whose names have a key:
    it returns, and the list of files is the supported entries that exist,
    each once, in natural order. *)
Lemma open_path_directory_sorted
  (e : Env) (dir : Path) (names : list string) (s : QT.ImageViewer) :
  is_dir e dir = true ->
  listdir e dir = Some names ->
  (forall n, In n names -> exists k, human_sort_key (child dir n) = Some k) ->
  exists s',
    QT.open_path e dir s = Some s' /\
    Permutation
      (filter (fun p => supported p && exists_ e p) (map (child dir) names))
      (QT.files s') /\
    StronglySorted natural_le (QT.files s').
Proof.
  intros Hd Hl Hk. unfold QT.open_path, iterdir. rewrite Hd, Hl. cbn.
  destruct (sorted_paths_returns (map (child dir) names)) as [ordered Ho].
  { intros p Hp. apply in_map_iff in Hp. destruct Hp as [n [<- Hn]]. auto. }
  rewrite Ho. cbn. eexists. split; [reflexivity|].
  rewrite load_files_files.
  destruct (sorted_paths_spec _ _ Ho) as [Hp Hs]. split.
  - rewrite filter_twice. apply Permutation_filter_both. exact Hp.
  - apply StronglySorted_filter, StronglySorted_filter. exact Hs.
Qed.

(** A single name whose key raises makes [open_path] raise. *)
Lemma open_path_directory_raises
  (e : Env) (dir : Path) (names : list string) (n : string)
  (s : QT.ImageViewer) :
  is_dir e dir = true ->
  listdir e dir = Some names ->
  In n names -> human_sort_key (child dir n) = None ->
  QT.open_path e dir s = None.
Proof.
  intros Hd Hl Hn Hk. unfold QT.open_path, iterdir. rewrite Hd, Hl. cbn.
  rewrite (sorted_raises list_lt human_sort_key _ (child dir n));
    [reflexivity | apply in_map; exact Hn | exact Hk].
Qed.

(** The files of a directory come out without a repeated path. *)
Lemma open_path_directory_NoDup
  (e : Env) (dir : Path) (names : list string) (s s' : QT.ImageViewer) :
  is_dir e dir = true ->
  listdir e dir = Some names ->
  NoDup names ->
  QT.open_path e dir s = Some s' ->
  NoDup (QT.files s').
Proof.
  intros Hd Hl Hn. unfold QT.open_path, iterdir. rewrite Hd, Hl. cbn.
  destruct (sorted _ _ _) as [ordered|] eqn:Ho; cbn; [|discriminate].
  intros H. injection H as <-. rewrite load_files_files.
  apply NoDup_filter, NoDup_filter.
  destruct (sorted_paths_spec _ _ Ho) as [Hp _].
  apply (Permutation_NoDup Hp).
  apply Injective_map_NoDup; [|exact Hn].
  intros n m. apply child_injective.
Qed.

(** C10. Whenever [human_sort_key] returns for two names, each key holds a
    [str] at every even position and an [int] at every odd one, so [<] on
    the two keys returns without comparing an [int] with a [str]; and
    [sorted] with this key returns on every list all of whose keys are
    computed. *)
Theorem human_sort_key_never_mixes_types
  (p q : Path) (kp kq : list key_elem) :
  human_sort_key p = Some kp ->
  human_sort_key q = Some kq ->
  (forall i x, nth_error kp i = Some x -> is_int x = Nat.odd i) /\
  (forall i x, nth_error kq i = Some x -> is_int x = Nat.odd i) /\
  (exists b, list_lt kp kq = Some b) /\
  (forall l : list Path,
      (forall r, In r l -> exists k, human_sort_key r = Some k) ->
      exists out, sorted list_lt human_sort_key l = Some out).
Proof.
  intros Hp Hq.
  pose proof (human_sort_key_shape p kp Hp) as Sp.
  pose proof (human_sort_key_shape q kq Hq) as Sq.
  repeat split.
  - intros i x Hi. apply (shape_nth kp false Sp i x Hi).
  - intros i x Hi. apply (shape_nth kq false Sq i x Hi).
  - apply (list_lt_total kp kq false Sp Sq).
  - apply sorted_paths_returns.
Qed.

(** The keys of "img2.png" and "IMG10.png" are comparable. *)
Lemma human_sort_key_never_mixes_types_witness :
  exists b,
    list_lt [KStr "img"; KInt 2; KStr ".png"]
            [KStr "img"; KInt 10; KStr ".png"] = Some b.
Proof.
  destruct (human_sort_key_never_mixes_types
              ["pics"; "img2.png"]%string ["pics"; "IMG10.png"]%string
              [KStr "img"; KInt 2; KStr ".png"]
              [KStr "img"; KInt 10; KStr ".png"])
    as (_ & _ & Hlt & _); [reflexivity | reflexivity | exact Hlt].
Defined.

(** The example of the specification: natural order puts 2 before 10. *)
Lemma open_path_directory_example :
  option_map QT.files
    (QT.open_path (pics_env ["img2.png"; "img10.png"; "img1.png"]%string)
       ["pics"%string] QT.init)
  = Some [["pics"; "img1.png"]; ["pics"; "img2.png"];
          ["pics"; "img10.png"]]%string.
Proof. vm_compute. reflexivity. Qed.

(** C4 at a directory that holds "1²3.png": the split gives the piece "²",
    [isdigit] accepts it, [int] raises on it, and so does [open_path]. *)
Theorem open_path_directory_raises_on_superscript :
  re_split_digits superscript_name
    = [EmptyString; "1"; String (ascii_of_N 178) EmptyString; "3"; ".png"]%string /\
  isdigit (String (ascii_of_N 178) EmptyString) = true /\
  int (String (ascii_of_N 178) EmptyString) = None /\
  human_sort_key ["pics"%string; superscript_name] = None /\
  QT.open_path (pics_env ["img2.png"%string; superscript_name; "img1.png"%string])
    ["pics"%string] QT.init = None.
Proof. vm_compute. repeat split. Qed.

(** C3 at a file opened by its path: [open_path] puts the path before the
    entries of its directory, the path itself among them, so the list of
    files holds it twice. *)
Theorem open_path_file_repeats_path :
  exists s' : QT.ImageViewer,
    QT.open_path (pics_env ["a.png"; "b.png"]%string)
      ["pics"; "a.png"]%string QT.init = Some s' /\
    QT.files s' = [["pics"; "a.png"]; ["pics"; "a.png"];
                   ["pics"; "b.png"]]%string /\
    ~ NoDup (QT.files s').
Proof.
  eexists. split; [vm_compute; reflexivity|]. split; [reflexivity|].
  cbn. intros H. inversion H as [|x l Hx _]. apply Hx. left. reflexivity.
Qed.

(** The GTK viewers list the folder only, so no path is repeated. *)
Lemma on_open_NoDup (e : Env) (path : Path) (names : list string)
  (s s' : GTK.ImageViewer) :
  listdir e (parent path) = Some names ->
  NoDup names ->
  GTK.on_open e path s = Some s' ->
  NoDup (GTK.files s').
Proof.
  intros Hl Hn. unfold GTK.on_open. rewrite Hl. cbn.
  destruct (GTK.index_of _ _ _) as [i|]; cbn; [|discriminate].
  intros H. injection H as <-. cbn.
  apply Injective_map_NoDup; [|apply NoDup_filter; exact Hn].
  intros n m. apply child_injective.
Qed.

(** ** Comparisons of binary64 numbers *)

Lemma SFcompare_antisym (x y : spec_float) :
  SFcompare y x = option_map CompOpp (SFcompare x y).
Proof.
  destruct x as [sx|sx| |sx mx ex], y as [sy|sy| |sy my ey]; cbn;
    try reflexivity;
    try (destruct sx; reflexivity); try (destruct sy; reflexivity);
    try (destruct sx, sy; reflexivity).
  destruct sx, sy; cbn; try reflexivity;
    rewrite (Z.compare_antisym ex ey);
    destruct (ex ?= ey)%Z; cbn; try reflexivity;
    change (Pos.compare_cont Eq my mx) with (Pos.compare my mx);
    change (Pos.compare_cont Eq mx my) with (Pos.compare mx my);
    rewrite (Pos.compare_antisym mx my);
    destruct (mx ?= my)%positive; reflexivity.
Qed.

Lemma SFcompare_number (x y : spec_float) :
  x <> S754_nan -> y <> S754_nan -> exists c, SFcompare x y = Some c.
Proof.
  destruct x, y; cbn; intros Hx Hy; try congruence; eauto.
Qed.

Lemma SFcompare_some_number (x y : spec_float) (c : comparison) :
  SFcompare x y = Some c -> x <> S754_nan /\ y <> S754_nan.
Proof. destruct x, y; cbn; intros H; split; congruence. Qed.

(** Equal in the order and finite, not zero: the same number. *)
Lemma SFcompare_eq_finite (s : bool) (m : positive) (e : Z) (y : spec_float) :
  SFcompare (S754_finite s m e) y = Some Eq -> y = S754_finite s m e.
Proof.
  destruct y as [sy|sy| |sy my ey]; cbn; try (destruct s; discriminate);
    try (destruct sy; discriminate).
  destruct s, sy; try discriminate;
    destruct (Z.compare_spec e ey); try discriminate;
    change (Pos.compare_cont Eq m my) with (Pos.compare m my);
    destruct (Pos.compare_spec m my); cbn; try discriminate;
    intros _; subst; reflexivity.
Qed.

Lemma flt_fle (x y : float) : (x <? y)%float = true -> (x <=? y)%float = true.
Proof.
  rewrite ltb_spec, leb_spec. unfold SFltb, SFleb.
  destruct (SFcompare _ _) as [[| |]|]; congruence.
Qed.

Lemma flt_asym (x y : float) : (x <? y)%float = true -> (y <? x)%float = false.
Proof.
  rewrite !ltb_spec. unfold SFltb.
  rewrite (SFcompare_antisym (Prim2SF x) (Prim2SF y)).
  destruct (SFcompare _ _) as [[| |]|]; cbn; congruence.
Qed.

Lemma fle_not_flt (x y : float) :
  (x <=? y)%float = true -> (y <? x)%float = false.
Proof.
  rewrite ltb_spec, leb_spec. unfold SFltb, SFleb.
  rewrite (SFcompare_antisym (Prim2SF x) (Prim2SF y)).
  destruct (SFcompare _ _) as [[| |]|]; cbn; congruence.
Qed.

Lemma not_flt_fle (x y : float) :
  is_number x -> is_number y ->
  (y <? x)%float = false -> (x <=? y)%float = true.
Proof.
  unfold is_number. rewrite ltb_spec, leb_spec. unfold SFltb, SFleb.
  intros Hx Hy. rewrite (SFcompare_antisym (Prim2SF x) (Prim2SF y)).
  destruct (SFcompare_number _ _ Hx Hy) as [c ->].
  destruct c; cbn; congruence.
Qed.

Lemma flt_number (x y : float) :
  (x <? y)%float = true -> is_number x /\ is_number y.
Proof.
  rewrite ltb_spec. unfold SFltb, is_number.
  destruct (SFcompare _ _) as [c|] eqn:E; [|discriminate]. intros _.
  eapply SFcompare_some_number. exact E.
Qed.

Lemma fle_number (x y : float) :
  (x <=? y)%float = true -> is_number x /\ is_number y.
Proof.
  rewrite leb_spec. unfold SFleb, is_number.
  destruct (SFcompare _ _) as [c|] eqn:E; [|discriminate]. intros _.
  eapply SFcompare_some_number. exact E.
Qed.

Lemma Prim2SF_injective (x y : float) : Prim2SF x = Prim2SF y -> x = y.
Proof.
  intros H. rewrite <- (SF2Prim_Prim2SF x), <- (SF2Prim_Prim2SF y).
  rewrite H. reflexivity.
Qed.

(** At least a finite non-zero [c] and not above it: [c] itself. *)
Lemma fle_not_flt_eq (c x : float) (s : bool) (m : positive) (e : Z) :
  Prim2SF c = S754_finite s m e ->
  (c <=? x)%float = true -> (c <? x)%float = false -> x = c.
Proof.
  intros Hc. rewrite ltb_spec, leb_spec. unfold SFltb, SFleb.
  destruct (SFcompare _ _) as [[| |]|] eqn:E; try discriminate. intros _ _.
  rewrite Hc in E. apply SFcompare_eq_finite in E.
  apply Prim2SF_injective. congruence.
Qed.

(** Strictly positive numbers are the positive finite numbers and the
    positive infinity. *)
Lemma positive_cases (x : float) :
  (0 <? x)%float = true ->
  Prim2SF x = S754_infinity false \/
  exists m e, Prim2SF x = S754_finite false m e.
Proof.
  rewrite ltb_spec. unfold SFltb.
  change (Prim2SF 0) with (S754_zero false).
  destruct (Prim2SF x) as [s|s| |s m e]; cbn; try discriminate;
    destruct s; try discriminate; eauto.
Qed.

(** ** Rounding never makes a NaN *)

Lemma shr_1_nonneg (mrs : shr_record) :
  0 <= shr_m mrs -> 0 <= shr_m (shr_1 mrs).
Proof.
  destruct mrs as [m r s]. cbn.
  destruct m as [|p|p]; cbn; try lia; destruct p; cbn; lia.
Qed.

Lemma iter_pos_nonneg (p : positive) (mrs : shr_record) :
  0 <= shr_m mrs -> 0 <= shr_m (iter_pos shr_1 p mrs).
Proof.
  revert mrs. induction p as [p IH|p IH|]; intros mrs H; cbn.
  - apply IH, IH, shr_1_nonneg, H.
  - apply IH, IH, H.
  - apply shr_1_nonneg, H.
Qed.

Lemma shr_fexp_nonneg (m e : Z) (l : location) :
  0 <= m -> 0 <= shr_m (fst (shr_fexp prec emax m e l)).
Proof.
  intros H. unfold shr_fexp, shr.
  assert (H0 : 0 <= shr_m (shr_record_of_loc m l))
    by (destruct l as [|[| |]]; exact H).
  destruct (_ - e) as [|p|p]; cbn [fst]; auto.
  apply iter_pos_nonneg, H0.
Qed.

Lemma round_nearest_even_nonneg (m : Z) (l : location) :
  0 <= m -> 0 <= round_nearest_even m l.
Proof.
  intros H. destruct l as [|[| |]]; cbn; try lia.
  destruct (Z.even m); lia.
Qed.

Lemma binary_round_aux_number (s : bool) (m e : Z) (l : location) :
  0 <= m -> binary_round_aux prec emax s m e l <> S754_nan.
Proof.
  intros H. unfold binary_round_aux.
  pose proof (shr_fexp_nonneg m e l H) as H1.
  destruct (shr_fexp prec emax m e l) as [mrs' e']. cbn [fst] in H1.
  pose proof (shr_fexp_nonneg _ e' loc_Exact
                (round_nearest_even_nonneg _ (loc_of_shr_record mrs') H1))
    as H2.
  destruct (shr_fexp prec emax _ e' loc_Exact) as [mrs'' e''].
  cbn [fst] in H2.
  destruct (shr_m mrs'') as [|p|p]; [discriminate | | lia].
  destruct (e'' <=? emax - prec); discriminate.
Qed.

(** The product of two strictly positive numbers is a number. *)
Lemma mul_positive_number (x y : float) :
  (0 <? x)%float = true -> (0 <? y)%float = true -> is_number (x * y).
Proof.
  intros Hx Hy. unfold is_number. rewrite mul_spec.
  destruct (positive_cases x Hx) as [->|(mx & ex & ->)],
           (positive_cases y Hy) as [->|(my & ey & ->)];
    cbn; try discriminate.
  apply binary_round_aux_number. lia.
Qed.

Lemma SFcompare_lt_trans (x y z : spec_float) :
  SFcompare x y = Some Lt -> SFcompare y z = Some Lt ->
  SFcompare x z = Some Lt.
Proof.
  destruct x as [sx|sx| |sx mx ex], y as [sy|sy| |sy my ey],
           z as [sz|sz| |sz mz ez]; cbn;
    try discriminate;
    try (destruct sx; discriminate); try (destruct sy; discriminate);
    try (destruct sz; discriminate);
    try (destruct sx, sy; discriminate); try (destruct sy, sz; discriminate);
    try (destruct sx, sy, sz; (discriminate || reflexivity)).
  change (Pos.compare_cont Eq mx my) with (Pos.compare mx my).
  change (Pos.compare_cont Eq my mz) with (Pos.compare my mz).
  change (Pos.compare_cont Eq mx mz) with (Pos.compare mx mz).
  destruct sx, sy, sz; try discriminate; try reflexivity;
    destruct (Z.compare_spec ex ey), (Z.compare_spec ey ez),
             (Z.compare_spec ex ez);
    try discriminate; try reflexivity; try lia; subst;
    destruct (Pos.compare_spec mx my), (Pos.compare_spec my mz),
             (Pos.compare_spec mx mz);
    cbn; try discriminate; try reflexivity; intros; lia.
Qed.

Lemma flt_trans (x y z : float) :
  (x <? y)%float = true -> (y <? z)%float = true -> (x <? z)%float = true.
Proof.
  rewrite !ltb_spec. unfold SFltb.
  destruct (SFcompare (Prim2SF x) (Prim2SF y)) as [[| |]|] eqn:E1;
    try discriminate.
  destruct (SFcompare (Prim2SF y) (Prim2SF z)) as [[| |]|] eqn:E2;
    try discriminate.
  rewrite (SFcompare_lt_trans _ _ _ E1 E2). reflexivity.
Qed.

(** ** Zoom *)

Lemma apply_zoom_scale (e : Env) (factor : float) (s : QT.ImageViewer) :
  QT.scale (QT.apply_zoom e factor s)
  = fmax 0.05 (fmin (QT.scale s * factor) 20.0).
Proof. unfold QT.apply_zoom. autorewrite with qt_frame. reflexivity. Qed.

(** On a number, [max(0.05, min(x, 20.0))] is the clamp of [x]. *)
Lemma fmax_fmin_clamp (x : float) :
  is_number x -> fmax 0.05 (fmin x 20.0) = clamp_spec 0.05 20.0 x.
Proof.
  intros Hx. unfold fmax, fmin, clamp_spec.
  destruct (x <? 0.05)%float eqn:E1.
  - destruct (20 <? x)%float eqn:E2.
    + pose proof (flt_trans _ _ _ E2 E1) as H. vm_compute in H. discriminate.
    + rewrite (flt_asym _ _ E1). reflexivity.
  - destruct (20 <? x)%float eqn:E2; [reflexivity|].
    destruct (0.05 <? x)%float eqn:E3; [reflexivity|]. symmetry.
    apply (fle_not_flt_eq 0.05 x false 7205759403792794 (-57));
      [reflexivity | | exact E3].
    apply not_flt_fle; [discriminate | exact Hx | exact E1].
Qed.

(** Whatever [x] is, [max(0.05, min(x, 20.0))] lies in the range. *)
Lemma fmax_fmin_range (x : float) :
  (0.05 <=? fmax 0.05 (fmin x 20.0))%float = true /\
  (fmax 0.05 (fmin x 20.0) <=? 20.0)%float = true.
Proof.
  unfold fmax, fmin. destruct (20 <? x)%float eqn:E2.
  - vm_compute. auto.
  - destruct (0.05 <? x)%float eqn:E3; [|vm_compute; auto]. split.
    + apply flt_fle, E3.
    + apply not_flt_fle; [apply (flt_number _ _ E3) | discriminate | exact E2].
Qed.

(** C6. In the Qt viewer, for a strictly positive [scale] and a strictly
    positive factor, [apply_zoom] stores in [scale] the product of the two
    clamped into [0.05, 20.0], which lies in that range, clears
    [fit_to_window], and leaves the list of files, the index,
    [rotation_deg] and the decoded pixmap as they were. *)
Theorem apply_zoom_clamps (e : Env) (factor : float) (s : QT.ImageViewer) :
  (0 <? QT.scale s)%float = true ->
  (0 <? factor)%float = true ->
  QT.scale (QT.apply_zoom e factor s)
    = clamp_spec 0.05 20.0 (QT.scale s * factor) /\
  (0.05 <=? QT.scale (QT.apply_zoom e factor s))%float = true /\
  (QT.scale (QT.apply_zoom e factor s) <=? 20.0)%float = true /\
  QT.fit_to_window (QT.apply_zoom e factor s) = false /\
  QT.files (QT.apply_zoom e factor s) = QT.files s /\
  QT.index (QT.apply_zoom e factor s) = QT.index s /\
  QT.rotation_deg (QT.apply_zoom e factor s) = QT.rotation_deg s /\
  QT.orig_pixmap (QT.apply_zoom e factor s) = QT.orig_pixmap s.
Proof.
  intros Hs Hf. rewrite !apply_zoom_scale.
  split; [apply fmax_fmin_clamp, mul_positive_number; assumption|].
  split; [apply fmax_fmin_range|]. split; [apply fmax_fmin_range|].
  unfold QT.apply_zoom. autorewrite with qt_frame. cbn. auto.
Qed.

(** From scale 1.0 a factor of 1.15 gives 1.15 and a factor of 30 gives the
    upper end 20.0. *)
Lemma apply_zoom_clamps_witness :
  QT.scale (QT.apply_zoom plain_env 1.15 turned_viewer) = 1.15%float /\
  QT.scale (QT.apply_zoom plain_env 30 turned_viewer) = 20%float.
Proof.
  split.
  - destruct (apply_zoom_clamps plain_env 1.15 turned_viewer) as [H _];
      [reflexivity | reflexivity | rewrite H; reflexivity].
  - destruct (apply_zoom_clamps plain_env 30 turned_viewer) as [H _];
      [reflexivity | reflexivity | rewrite H; reflexivity].
Defined.

(** The GTK viewers multiply [scale] by 1.2 without a bound. *)
Lemma on_zoom_in_unbounded :
  GTK.scale (GTK.on_zoom_in {| GTK.files := []; GTK.index := -1;
                               GTK.scale := 20.0 |}) = 24%float.
Proof. reflexivity. Qed.

(** ** Integers as binary64 numbers, and their quotients *)

Lemma pow2_nonpos (k : Z) : k <= 0 -> 2 ^ k <= 1.
Proof.
  intros H. destruct (Z.eq_dec k 0) as [->|Hk]; [cbn; lia|].
  rewrite Z.pow_neg_r by lia. lia.
Qed.

Lemma pow2_pos (k : Z) : 0 < k -> 2 ^ k = 2 * 2 ^ (k - 1).
Proof.
  intros H. replace k with (Z.succ (k - 1)) at 1 by lia.
  apply Z.pow_succ_r. lia.
Qed.

(** A positive number below 2^k is written on at most [k] bits. *)
Lemma digits2_pos_bound (m : positive) (k : Z) :
  Zpos m < 2 ^ k -> Zpos (digits2_pos m) <= k.
Proof.
  revert k. induction m as [m IH|m IH|]; intros k H; cbn [digits2_pos];
    destruct (Z.le_gt_cases k 0) as [Hk|Hk];
    try (pose proof (pow2_nonpos k Hk); lia);
    try lia;
    rewrite pow2_pos in H by exact Hk;
    specialize (IH (k - 1)); rewrite Pos2Z.inj_succ; lia.
Qed.

Lemma digits2_pos_shift (m k : positive) :
  digits2_pos (Pos.iter xO m k) = (digits2_pos m + k)%positive.
Proof.
  induction k as [|k IH] using Pos.peano_ind.
  - cbn. rewrite Pos.add_1_r. reflexivity.
  - rewrite Pos.iter_succ. cbn [digits2_pos]. rewrite IH.
    rewrite Pos.add_succ_r. reflexivity.
Qed.

(** A mantissa of 53 bits with an exponent in range is left as it is. *)
Lemma shr_fexp_canonical (m : positive) (e : Z) :
  Zpos (digits2_pos m) = 53 -> -1074 <= e ->
  shr_fexp prec emax (Zpos m) e loc_Exact
  = ({| shr_m := Zpos m; shr_r := false; shr_s := false |}, e).
Proof.
  intros Hd He.
  assert (E : fexp prec emax (Zdigits2 (Zpos m) + e) - e = 0).
  { unfold fexp, SpecFloat.emin, prec, emax. cbn [Zdigits2].
    rewrite Hd. lia. }
  unfold shr_fexp. rewrite E. reflexivity.
Qed.

Lemma binary_round_aux_canonical (s : bool) (m : positive) (e : Z) :
  Zpos (digits2_pos m) = 53 -> -1074 <= e <= 971 ->
  binary_round_aux prec emax s (Zpos m) e loc_Exact = S754_finite s m e.
Proof.
  intros Hd He. unfold binary_round_aux.
  rewrite shr_fexp_canonical by (auto; lia).
  cbn [shr_m loc_of_shr_record round_nearest_even].
  rewrite shr_fexp_canonical by (auto; lia). cbn [shr_m].
  replace (e <=? emax - prec) with true; [reflexivity|].
  symmetry. apply Z.leb_le. unfold emax, prec. lia.
Qed.

Lemma binary_round_small (s : bool) (m : positive) :
  Zpos (digits2_pos m) <= 53 ->
  exists mz ez, binary_round prec emax s m 0 = S754_finite s mz ez.
Proof.
  intros Hd. unfold binary_round, shl_align.
  assert (E : fexp prec emax (Zpos (digits2_pos m) + 0)
              = Zpos (digits2_pos m) - 53).
  { unfold fexp, SpecFloat.emin, prec, emax. lia. }
  rewrite E.
  destruct (Zpos (digits2_pos m) - 53 - 0) as [|k|k] eqn:Ek; [|lia|].
  - exists m, 0. apply binary_round_aux_canonical; lia.
  - exists (Pos.iter xO m k), (Zpos (digits2_pos m) - 53).
    apply binary_round_aux_canonical; [|lia].
    rewrite digits2_pos_shift, Pos2Z.inj_add. lia.
Qed.

(** A positive integer below 2^53 converts to a positive finite number. *)
Lemma float_of_int_finite (n : Z) :
  0 < n < 2 ^ 53 ->
  exists m e, Prim2SF (float_of_int n) = S754_finite false m e.
Proof.
  intros Hn. unfold float_of_int.
  destruct (n <? 0) eqn:E; [apply Z.ltb_lt in E; lia|].
  rewrite of_uint63_spec.
  rewrite Uint63.of_Z_spec.
  rewrite Z.mod_small by (change Uint63.wB with (2 ^ 63); lia).
  destruct n as [|m|m]; try lia. cbn [binary_normalize].
  apply binary_round_small. apply digits2_pos_bound. lia.
Qed.

Lemma SFdiv_finite_number (sx sy : bool) (mx my : positive) (ex ey : Z) :
  SFdiv prec emax (S754_finite sx mx ex) (S754_finite sy my ey)
  <> S754_nan.
Proof.
  cbn [SFdiv].
  destruct (SFdiv_core_binary prec emax (Zpos mx) ex (Zpos my) ey)
    as [[q e'] l] eqn:E.
  apply binary_round_aux_number.
  unfold SFdiv_core_binary in E.
  match type of E with
  | (let '(q, r) := Z.div_eucl ?a ?b in _) = _ =>
      pose proof (Z_div_mod a b eq_refl) as Hdiv;
      assert (Ha : 0 <= a)
  end.
  { destruct (_ - _ - _) as [|p|p]; try lia. rewrite Z.shiftl_nonneg. lia. }
  destruct (Z.div_eucl _ _) as [q' r']. injection E as <- _ _.
  destruct Hdiv as [Hq Hr]. nia.
Qed.

(** The quotient of two positive integers below 2^53 is a number. *)
Lemma truediv_number (a b : Z) :
  0 < a < 2 ^ 53 -> 0 < b < 2 ^ 53 ->
  exists q, truediv a b = Some q /\ is_number q.
Proof.
  intros Ha Hb. unfold truediv.
  destruct (b =? 0) eqn:E; [apply Z.eqb_eq in E; lia|].
  eexists. split; [reflexivity|]. unfold is_number. rewrite div_spec.
  destruct (float_of_int_finite a Ha) as (ma & ea & ->).
  destruct (float_of_int_finite b Hb) as (mb & eb & ->).
  apply SFdiv_finite_number.
Qed.

(** ** Fitting the image to its area *)

Lemma fmin_number (a b : float) :
  is_number a -> is_number b -> is_number (fmin a b).
Proof. intros Ha Hb. unfold fmin. destruct (b <? a)%float; assumption. Qed.

(** [min(a, b)] is one of the two and above neither. *)
Lemma fmin_is_min (a b : float) :
  is_number a -> is_number b ->
  (fmin a b = a \/ fmin a b = b) /\
  (fmin a b <=? a)%float = true /\ (fmin a b <=? b)%float = true.
Proof.
  intros Ha Hb. unfold fmin. destruct (b <? a)%float eqn:E.
  - split; [auto|]. split; [apply flt_fle, E|].
    apply not_flt_fle; auto. rewrite ltb_spec. unfold SFltb.
    destruct (SFcompare_number _ _ Hb Hb) as [c Hc].
    pose proof (SFcompare_antisym (Prim2SF b) (Prim2SF b)) as H.
    rewrite Hc in H. destruct c; cbn in H; try discriminate.
    rewrite Hc. reflexivity.
  - split; [auto|]. split; [|apply not_flt_fle; auto].
    apply not_flt_fle; auto. rewrite ltb_spec. unfold SFltb.
    destruct (SFcompare_number _ _ Ha Ha) as [c Hc].
    pose proof (SFcompare_antisym (Prim2SF a) (Prim2SF a)) as H.
    rewrite Hc in H. destruct c; cbn in H; try discriminate.
    rewrite Hc. reflexivity.
Qed.

(** C5. In main.py, for an area and an image whose sides are positive (and
    below 2^53, as every size in pixels is), the scale [show_image] computes
    is the smaller of the two quotients area/image when that is at most 1.0,
    and 1.0 when it is more; it is never above 1.0. For an image of
    4000 x 3000 in an area of 800 x 600 it is 0.2. *)
Theorem fit_scale_is_capped_min (area_w area_h img_w img_h : Z) :
  0 < area_w < 2 ^ 53 -> 0 < area_h < 2 ^ 53 ->
  0 < img_w < 2 ^ 53 -> 0 < img_h < 2 ^ 53 ->
  exists a b sc : float,
    truediv area_w img_w = Some a /\
    truediv area_h img_h = Some b /\
    GTK.fit_scale area_w area_h img_w img_h = Some sc /\
    (sc <=? 1.0)%float = true /\
    ((fmin a b <=? 1.0)%float = true -> sc = fmin a b) /\
    ((1.0 <? fmin a b)%float = true -> sc = 1.0%float) /\
    (fmin a b = a \/ fmin a b = b) /\
    (fmin a b <=? a)%float = true /\ (fmin a b <=? b)%float = true /\
    GTK.fit_scale 800 600 4000 3000 = Some 0.2%float.
Proof.
  intros Haw Hah Hiw Hih.
  destruct (truediv_number area_w img_w Haw Hiw) as (a & Ea & Ha).
  destruct (truediv_number area_h img_h Hah Hih) as (b & Eb & Hb).
  exists a, b, (fmin3 a b 1.0). unfold GTK.fit_scale. rewrite Ea, Eb. cbn.
  repeat split; try apply (fmin_is_min a b Ha Hb).
  - unfold fmin3. unfold fmin at 1.
    destruct (1 <? fmin a b)%float eqn:E; [reflexivity|].
    apply not_flt_fle; [apply fmin_number; auto | discriminate | exact E].
  - intros H. unfold fmin3. unfold fmin at 1.
    rewrite (fle_not_flt _ _ H). reflexivity.
  - intros H. unfold fmin3. unfold fmin at 1. rewrite H. reflexivity.
Qed.

(** An image of 400 x 200 in an area of 1600 x 1200 is not scaled up. *)
Lemma fit_scale_is_capped_min_witness :
  exists sc : float,
    GTK.fit_scale 1600 1200 400 200 = Some sc /\ (sc <=? 1.0)%float = true.
Proof.
  destruct (fit_scale_is_capped_min 1600 1200 400 200)
    as (a & b & sc & _ & _ & Hsc & Hle & _); try (vm_compute; split; congruence).
  exists sc. split; [exact Hsc | exact Hle].
Defined.

(** The whole of main.py's [show_image] on the example: the scale and the
    size in pixels handed to the toolkit. *)
Lemma show_image_example :
  GTK.show_image
    {| GTK.alloc := (800, 600); GTK.allocated := (1000, 700);
       GTK.image_size := fun _ => Some (4000, 3000) |}
    {| GTK.files := [["pics"; "a.png"]%string]; GTK.index := 0;
       GTK.scale := 1.0 |}
  = Some (Some (["pics"; "a.png"]%string, 0.2%float, (800, 600))).
Proof. vm_compute. reflexivity. Qed.

(** ** The states the Qt viewer goes through *)

Lemma show_current_scale_cases (e : Env) (s : QT.ImageViewer) :
  QT.scale (QT.show_current e s) = 1.0%float \/
  QT.scale (QT.show_current e s) = QT.scale s.
Proof.
  unfold QT.show_current. destruct (QT.files s) as [|p l]; cbn; auto.
  destruct (decodes e _); autorewrite with qt_frame; cbn; auto.
Qed.

(** [show_current] puts the state in order, wherever the index was. *)
Lemma show_current_in_order (e : Env) (s : QT.ImageViewer) :
  0 <= QT.rotation_deg s < 360 ->
  (0.05 <=? QT.scale s)%float = true ->
  (QT.scale s <=? 20.0)%float = true ->
  in_order_state (QT.show_current e s).
Proof.
  intros Hr H1 H2. unfold in_order_state.
  rewrite show_current_files, show_current_rotation_deg.
  split; [|split; [exact Hr|]].
  - destruct (QT.files s) as [|p l] eqn:E; [left; reflexivity|right].
    rewrite show_current_index by congruence. rewrite <- E.
    apply clamp_index_range. congruence.
  - destruct (show_current_scale_cases e s) as [-> | ->]; auto.
Qed.

Lemma load_files_in_order (e : Env) (fl : list Path) (s : QT.ImageViewer) :
  in_order_state s -> in_order_state (QT.load_files e fl s).
Proof.
  intros (_ & Hr & H1 & H2). unfold QT.load_files.
  apply show_current_in_order; assumption.
Qed.

(** Every state the handlers reach is in order. *)
Theorem reachable_in_order (s : QT.ImageViewer) :
  reachable s -> in_order_state s.
Proof.
  induction 1 as [ | e path s s' _ IH Ho | e fl s _ IH | e s _ IH | e s _ IH
                 | e factor s _ IH | e s _ IH | e s _ IH | e deg s _ IH
                 | e s s' _ IH Hne Hd ].
  - unfold in_order_state. cbn. repeat split; auto; lia.
  - unfold QT.open_path in Ho. destruct (is_dir e path).
    + destruct (iterdir e path) as [entries|]; [|discriminate]. cbn in Ho.
      destruct (sorted _ _ _) as [ordered|]; [|discriminate].
      injection Ho as <-. apply load_files_in_order, IH.
    + destruct (iterdir e (parent path)) as [entries|]; [|discriminate].
      injection Ho as <-.
      pose proof (load_files_in_order e (filter supported (path :: entries))
                    s IH) as (_ & Hr & H1 & H2).
      destruct (QT.find_resolved _ _ _ _);
        apply show_current_in_order; assumption.
  - apply load_files_in_order, IH.
  - unfold QT.prev_image. destruct (QT.files s) eqn:E; [exact IH|].
    destruct IH as (_ & Hr & H1 & H2).
    apply show_current_in_order; assumption.
  - unfold QT.next_image. destruct (QT.files s) eqn:E; [exact IH|].
    destruct IH as (_ & Hr & H1 & H2).
    apply show_current_in_order; assumption.
  - destruct IH as (Hi & Hr & _ & _). unfold in_order_state.
    rewrite apply_zoom_scale. unfold QT.apply_zoom.
    autorewrite with qt_frame. cbn.
    repeat split; try apply fmax_fmin_range; tauto.
  - destruct IH as (Hi & Hr & _ & _). unfold in_order_state, QT.reset_zoom.
    autorewrite with qt_frame. cbn. repeat split; tauto.
  - destruct IH as (Hi & Hr & H1 & H2). unfold in_order_state, QT.toggle_fit.
    autorewrite with qt_frame. cbn. repeat split; tauto.
  - destruct IH as (Hi & Hr & H1 & H2). unfold in_order_state.
    rewrite rotate_rotation_deg.
    destruct (rotate_frame e deg s) as (-> & -> & -> & _).
    repeat split; try tauto; apply Z.mod_pos_bound; lia.
  - destruct IH as (_ & Hr & H1 & H2). unfold QT.after_delete in Hd.
    destruct (pop _ _) as [[x rest]|]; [|discriminate].
    injection Hd as <-. apply show_current_in_order; assumption.
Qed.

(** The scale of a state in order is strictly positive. *)
Lemma in_order_scale_positive (s : QT.ImageViewer) :
  in_order_state s -> (0 <? QT.scale s)%float = true.
Proof.
  intros (_ & _ & H & _). revert H. rewrite ltb_spec, leb_spec.
  unfold SFltb, SFleb.
  change (Prim2SF 0.05) with (S754_finite false 7205759403792794 (-57)).
  change (Prim2SF 0) with (S754_zero false).
  destruct (Prim2SF (QT.scale s)) as [sg|sg| |sg m ex]; cbn;
    try discriminate; destruct sg; cbn; try discriminate; reflexivity.
Qed.

(** In every reachable state that shows a file, the premises of the
    statements on navigation, rotation and zoom hold. *)
Corollary reachable_premises (s : QT.ImageViewer) :
  reachable s -> QT.files s <> [] ->
  0 <= QT.index s < len (QT.files s) /\
  0 <= QT.rotation_deg s < 360 /\
  (0 <? QT.scale s)%float = true.
Proof.
  intros Hs Hne. pose proof (reachable_in_order s Hs) as Hin.
  pose proof (in_order_scale_positive s Hin) as Hp.
  destruct Hin as ([He|Hi] & Hr & _); [contradiction|]. auto.
Qed.

(** Deleting the only file of a freshly loaded list is such a run: it ends
    on an empty list with the index at 0, a state in order all the same. *)
Lemma reachable_empty_at_zero :
  exists s : QT.ImageViewer,
    reachable s /\ QT.files s = [] /\ QT.index s = 0.
Proof.
  pose (s1 := QT.load_files plain_env [["pics"; "a.png"]%string] QT.init).
  assert (R1 : reachable s1) by (apply reach_load_files, reach_init).
  destruct (after_delete_single_leaves_zero_at plain_env
              ["pics"; "a.png"]%string s1) as (s2 & Hd & Hf & Hi);
    [reflexivity | reflexivity |].
  exists s2. split; [|auto].
  apply (reach_after_delete plain_env s1 s2 R1); [discriminate | exact Hd].
Qed.


(** * The other handlers *)

(** ** What every handler keeps *)

Section HandlersKeepOrder.
Variable e : Env.

Lemma open_path_in_order (path : Path) (s s' : QT.ImageViewer) :
  in_order_state s -> QT.open_path e path s = Some s' -> in_order_state s'.
Proof.
  intros IH Ho. unfold QT.open_path in Ho. destruct (is_dir e path).
  - destruct (iterdir e path) as [entries|]; [|discriminate]. cbn in Ho.
    destruct (sorted _ _ _) as [ordered|]; [|discriminate].
    injection Ho as <-. apply load_files_in_order, IH.
  - destruct (iterdir e (parent path)) as [entries|]; [|discriminate].
    injection Ho as <-.
    pose proof (load_files_in_order e (filter supported (path :: entries))
                  s IH) as (_ & Hr & H1 & H2).
    destruct (QT.find_resolved _ _ _ _);
      apply show_current_in_order; assumption.
Qed.

Lemma open_path_rotation_deg (path : Path) (s s' : QT.ImageViewer) :
  QT.open_path e path s = Some s' -> QT.rotation_deg s' = QT.rotation_deg s.
Proof.
  unfold QT.open_path, QT.load_files. intros Ho. destruct (is_dir e path).
  - destruct (iterdir e path) as [entries|]; [|discriminate]. cbn in Ho.
    destruct (sorted _ _ _) as [ordered|]; [|discriminate].
    injection Ho as <-. autorewrite with qt_frame. reflexivity.
  - destruct (iterdir e (parent path)) as [entries|]; [|discriminate].
    injection Ho as <-. autorewrite with qt_frame.
    destruct (QT.find_resolved _ _ _ _); cbn; autorewrite with qt_frame;
      reflexivity.
Qed.

Lemma step_in_order (s : QT.ImageViewer) (i : Z) :
  in_order_state s -> in_order_state (QT.show_current e (QT.set_index i s)).
Proof.
  intros (_ & Hr & H1 & H2). apply show_current_in_order; assumption.
Qed.

Lemma prev_image_in_order (s : QT.ImageViewer) :
  in_order_state s -> in_order_state (QT.prev_image e s).
Proof.
  intros H. unfold QT.prev_image. destruct (QT.files s); [exact H|].
  apply step_in_order, H.
Qed.

Lemma next_image_in_order (s : QT.ImageViewer) :
  in_order_state s -> in_order_state (QT.next_image e s).
Proof.
  intros H. unfold QT.next_image. destruct (QT.files s); [exact H|].
  apply step_in_order, H.
Qed.

Lemma apply_zoom_in_order (factor : float) (s : QT.ImageViewer) :
  in_order_state s -> in_order_state (QT.apply_zoom e factor s).
Proof.
  intros (Hi & Hr & _ & _). unfold in_order_state.
  rewrite apply_zoom_scale. unfold QT.apply_zoom.
  autorewrite with qt_frame. cbn.
  repeat split; try apply fmax_fmin_range; tauto.
Qed.

Lemma update_pixmap_in_order (s : QT.ImageViewer) :
  in_order_state s -> in_order_state (QT.update_pixmap e s).
Proof.
  unfold in_order_state. autorewrite with qt_frame. tauto.
Qed.

Lemma rotate_in_order (deg : Z) (s : QT.ImageViewer) :
  in_order_state s -> in_order_state (QT.rotate e deg s).
Proof.
  intros (Hi & Hr & H1 & H2). unfold in_order_state.
  rewrite rotate_rotation_deg.
  destruct (rotate_frame e deg s) as (-> & -> & -> & _).
  repeat split; try tauto; apply Z.mod_pos_bound; lia.
Qed.

Lemma after_delete_in_order (s s' : QT.ImageViewer) :
  in_order_state s -> QT.after_delete e s = Some s' -> in_order_state s'.
Proof.
  intros (_ & Hr & H1 & H2) Hd. unfold QT.after_delete in Hd.
  destruct (pop _ _) as [[x rest]|]; [|discriminate].
  injection Hd as <-. apply show_current_in_order; assumption.
Qed.

Lemma after_delete_rotation_deg (s s' : QT.ImageViewer) :
  QT.after_delete e s = Some s' -> QT.rotation_deg s' = QT.rotation_deg s.
Proof.
  unfold QT.after_delete. destruct (pop _ _) as [[x rest]|]; [|discriminate].
  cbn. intros H. injection H as <-. autorewrite with qt_frame. reflexivity.
Qed.

Lemma on_thumb_clicked_in_order (path : Path) (s : QT.ImageViewer) :
  in_order_state s -> in_order_state (QTHandlers.on_thumb_clicked e path s).
Proof.
  intros H. unfold QTHandlers.on_thumb_clicked.
  destruct (QTHandlers.find_path _ _ _); [apply step_in_order, H|].
  destruct H as (_ & Hr & H1 & H2). apply show_current_in_order; assumption.
Qed.

Lemma delete_current_in_order (d : QTHandlers.Disk) (ans : QTHandlers.answer)
  (s s' : QT.ImageViewer) :
  in_order_state s -> QTHandlers.delete_current e d ans s = Some s' ->
  in_order_state s' /\ QT.rotation_deg s' = QT.rotation_deg s.
Proof.
  intros H. unfold QTHandlers.delete_current.
  destruct (QT.files s); [intros E; injection E as <-; auto|].
  destruct (QTHandlers.getitem _ _) as [path|]; [|discriminate]. cbn.
  destruct ans.
  - intros E; injection E as <-; auto.
  - destruct (QTHandlers.move_to_trash d path).
    + intros E. split; [eapply after_delete_in_order; eassumption|].
      apply after_delete_rotation_deg, E.
    + intros E; injection E as <-; auto.
  - destruct (exists_ e path); [|intros E; injection E as <-; auto].
    destruct (QTHandlers.unlink d path); [|intros E; injection E as <-; auto].
    destruct (QT.after_delete e s) as [s1|] eqn:Ed;
      intros E; injection E as <-; auto.
    split; [eapply after_delete_in_order; eassumption|].
    apply after_delete_rotation_deg, Ed.
Qed.
End HandlersKeepOrder.

Lemma quarter_turn_rotate (r deg : Z) :
  quarter_turn r -> deg = 90 \/ deg = -90 -> quarter_turn ((r + deg) mod 360).
Proof.
  unfold quarter_turn.
  intros [-> | [-> | [-> | ->]]] [-> | ->]; cbn; auto.
Qed.

(** One event keeps the state in order and the rotation a quarter turn. *)
Lemma handle_keeps_order (e : Env) (d : QTHandlers.Disk)
  (ev : QTHandlers.event) (s s' : QT.ImageViewer) :
  in_order_state s -> quarter_turn (QT.rotation_deg s) ->
  QTHandlers.handle e d ev s = Some s' ->
  in_order_state s' /\ quarter_turn (QT.rotation_deg s').
Proof.
  intros Hin Hq. pose proof Hin as (Hi & Hr & H1 & H2).
  destruct ev; cbn [QTHandlers.handle]; intros E;
    try (injection E as <-).
  - split; [eapply open_path_in_order; eassumption|].
    rewrite (open_path_rotation_deg e path s s' E). exact Hq.
  - unfold QTHandlers.open_dialog. destruct picked; [auto|].
    split; [apply load_files_in_order, Hin|].
    unfold QT.load_files. autorewrite with qt_frame. exact Hq.
  - destruct folder as [p|]; cbn in E; [|injection E as <-; auto].
    split; [eapply open_path_in_order; eassumption|].
    rewrite (open_path_rotation_deg e p s s' E). exact Hq.
  - destruct urls as [|p urls]; cbn in E; [injection E as <-; auto|].
    split; [eapply open_path_in_order; eassumption|].
    rewrite (open_path_rotation_deg e p s s' E). exact Hq.
  - split; [apply on_thumb_clicked_in_order, Hin|].
    unfold QTHandlers.on_thumb_clicked.
    destruct (QTHandlers.find_path _ _ _); autorewrite with qt_frame;
      exact Hq.
  - split; [apply prev_image_in_order, Hin|].
    unfold QT.prev_image. destruct (QT.files s); [exact Hq|].
    autorewrite with qt_frame. exact Hq.
  - split; [apply next_image_in_order, Hin|].
    unfold QT.next_image. destruct (QT.files s); [exact Hq|].
    autorewrite with qt_frame. exact Hq.
  - unfold QTHandlers.wheelEvent. destruct ctrl.
    + split; [apply apply_zoom_in_order, Hin|].
      unfold QT.apply_zoom. autorewrite with qt_frame. exact Hq.
    + destruct (0 <? dy).
      * split; [apply prev_image_in_order, Hin|].
        unfold QT.prev_image. destruct (QT.files s); [exact Hq|].
        autorewrite with qt_frame. exact Hq.
      * split; [apply next_image_in_order, Hin|].
        unfold QT.next_image. destruct (QT.files s); [exact Hq|].
        autorewrite with qt_frame. exact Hq.
  - split; [apply apply_zoom_in_order, Hin|].
    unfold QT.apply_zoom. autorewrite with qt_frame. exact Hq.
  - split; [apply apply_zoom_in_order, Hin|].
    unfold QT.apply_zoom. autorewrite with qt_frame. exact Hq.
  - unfold in_order_state, QT.reset_zoom. autorewrite with qt_frame. cbn.
    repeat split; tauto.
  - unfold in_order_state, QT.toggle_fit. autorewrite with qt_frame. cbn.
    repeat split; tauto.
  - split; [apply rotate_in_order, Hin|]. rewrite rotate_rotation_deg.
    apply quarter_turn_rotate; auto.
  - split; [apply rotate_in_order, Hin|]. rewrite rotate_rotation_deg.
    apply quarter_turn_rotate; auto.
  - destruct (delete_current_in_order e d ans s s' Hin E) as [H ->]. auto.
  - unfold QTHandlers.resizeEvent. destruct (QT.fit_to_window s); [|auto].
    split; [apply update_pixmap_in_order, Hin|].
    autorewrite with qt_frame. exact Hq.
Qed.

(** X1. Whatever the user does in a session of the Qt viewer that no
    handler ends by raising, the state stays in order: the index is a
    position of the list of files unless the list is empty, the scale lies
    in [0.05, 20.0], and the rotation is 0, 90, 180 or 270. *)
Theorem session_keeps_order
  (steps : list (Env * QTHandlers.Disk * QTHandlers.event))
  (s : QT.ImageViewer) :
  QTHandlers.run steps QT.init = Some s ->
  in_order_state s /\ quarter_turn (QT.rotation_deg s).
Proof.
  assert (G : forall s0, in_order_state s0 ->
                quarter_turn (QT.rotation_deg s0) ->
                QTHandlers.run steps s0 = Some s ->
                in_order_state s /\ quarter_turn (QT.rotation_deg s)).
  { induction steps as [|[[e d] ev] rest IH]; intros s0 Hin Hq; cbn.
    - intros E. injection E as <-. auto.
    - destruct (QTHandlers.handle e d ev s0) as [s1|] eqn:E1; cbn;
        [|discriminate].
      destruct (handle_keeps_order e d ev s0 s1 Hin Hq E1) as [Hin1 Hq1].
      apply IH; assumption. }
  apply G.
  - unfold in_order_state. cbn. repeat split; auto; lia.
  - left. reflexivity.
Qed.

(** A directory with four pictures, and a system on which [gio] works. *)
Lemma session_keeps_order_witness :
  exists s : QT.ImageViewer,
    QTHandlers.run
      (map (fun ev =>
              (pics_env ["b2.png"; "b10.png"; "a.jpg"; "notes.txt"]%string,
               {| QTHandlers.which_gio := true;
                  QTHandlers.gio_trash := fun _ => Some 0;
                  QTHandlers.unlink := fun _ => true |}, ev))
         [QTHandlers.OpenPath ["pics"%string]; QTHandlers.Next;
          QTHandlers.RotateRight; QTHandlers.ZoomIn;
          QTHandlers.Delete QTHandlers.Yes; QTHandlers.Wheel false 120;
          QTHandlers.RotateLeft; QTHandlers.RotateLeft])
      QT.init = Some s /\
    in_order_state s /\ QT.rotation_deg s = 270.
Proof.
  eexists. split; [vm_compute; reflexivity|].
  split; [|reflexivity].
  refine (proj1 (session_keeps_order
    (map (fun ev =>
            (pics_env ["b2.png"; "b10.png"; "a.jpg"; "notes.txt"]%string,
             {| QTHandlers.which_gio := true;
                QTHandlers.gio_trash := fun _ => Some 0;
                QTHandlers.unlink := fun _ => true |}, ev))
       [QTHandlers.OpenPath ["pics"%string]; QTHandlers.Next;
        QTHandlers.RotateRight; QTHandlers.ZoomIn;
        QTHandlers.Delete QTHandlers.Yes; QTHandlers.Wheel false 120;
        QTHandlers.RotateLeft; QTHandlers.RotateLeft]) _ _)).
  vm_compute. reflexivity.
Defined.

(** ** Deleting the file on show *)

Lemma max_is_Zmax (a b : Z) : max a b = Z.max a b.
Proof. unfold max. destruct (a <? b) eqn:E; lia. Qed.

Lemma min_is_Zmin (a b : Z) : min a b = Z.min a b.
Proof. unfold min. destruct (b <? a) eqn:E; lia. Qed.

Lemma length_remove_at {A : Type} (i : nat) (l : list A) :
  (i < List.length l)%nat ->
  List.length (remove_at i l) = (List.length l - 1)%nat.
Proof.
  revert i. induction l as [|x l IH]; intros [|i] H; cbn in *; try lia.
  rewrite IH by lia. lia.
Qed.

Lemma nth_error_remove_at_before {A : Type} (i j : nat) (l : list A) :
  (j < i)%nat -> nth_error (remove_at i l) j = nth_error l j.
Proof.
  revert i j. induction l as [|x l IH]; intros [|i] [|j] H; cbn;
    try reflexivity; try lia.
  apply IH. lia.
Qed.

Lemma nth_error_remove_at_from {A : Type} (i j : nat) (l : list A) :
  (i <= j)%nat -> nth_error (remove_at i l) j = nth_error l (S j).
Proof.
  revert i j. induction l as [|x l IH]; intros [|i] [|j] H; cbn;
    try reflexivity; try lia.
  apply IH. lia.
Qed.

Lemma current_position (s : QT.ImageViewer) (p : Path) :
  current s = Some p ->
  0 <= QT.index s < len (QT.files s) /\
  nth_error (QT.files s) (Z.to_nat (QT.index s)) = Some p.
Proof.
  unfold current. destruct (_ && _) eqn:E; [|discriminate].
  apply andb_prop in E. destruct E as [E1 E2].
  apply Z.leb_le in E1. apply Z.ltb_lt in E2. auto.
Qed.

Lemma position_current (s : QT.ImageViewer) :
  0 <= QT.index s < len (QT.files s) ->
  current s = nth_error (QT.files s) (Z.to_nat (QT.index s)).
Proof.
  intros [H1 H2]. unfold current.
  apply Z.leb_le in H1. apply Z.ltb_lt in H2. rewrite H1, H2. reflexivity.
Qed.

Lemma getitem_position {A : Type} (l : list A) (i : Z) :
  0 <= i < len l -> QTHandlers.getitem l i = nth_error l (Z.to_nat i).
Proof.
  intros [H1 H2]. unfold QTHandlers.getitem.
  apply Z.leb_le in H1. apply Z.ltb_lt in H2. rewrite H1, H2. reflexivity.
Qed.

(** [after_delete] from a position of the list: the list loses that entry
    and the index stays, or steps back from the end. *)
Lemma after_delete_position (e : Env) (s : QT.ImageViewer) (p : Path) :
  current s = Some p ->
  exists s',
    QT.after_delete e s = Some s' /\
    QT.files s' = remove_at (Z.to_nat (QT.index s)) (QT.files s) /\
    len (QT.files s') = len (QT.files s) - 1 /\
    (QT.files s' <> [] ->
     QT.index s' = Z.min (QT.index s) (len (QT.files s) - 2)).
Proof.
  intros Hc. destruct (current_position s p Hc) as [[H1 H2] Hn].
  unfold QT.after_delete, pop.
  apply Z.leb_le in H1 as B1. apply Z.ltb_lt in H2 as B2.
  rewrite B1, B2, Hn. cbn. eexists. split; [reflexivity|].
  rewrite show_current_files. cbn.
  assert (Hlen : len (remove_at (Z.to_nat (QT.index s)) (QT.files s))
                 = len (QT.files s) - 1).
  { unfold len in *. rewrite length_remove_at by lia. lia. }
  split; [reflexivity|]. split; [exact Hlen|].
  intros Hne. rewrite show_current_index by exact Hne.
  unfold clamp_index. cbn. rewrite !max_is_Zmax, !min_is_Zmin, Hlen.
  apply len_pos in Hne. rewrite Hlen in Hne. lia.
Qed.

(** X2. [delete_current] on a viewer that shows the file [p]: when the
    deletion goes through (trash or unlink), the list loses exactly the
    entry under the index, and the viewer shows the file that followed it,
    or the one before it when the last file of the list was deleted; when
    the user cancels or the deletion fails, nothing changes. It never
    raises. *)
Theorem delete_current_removes_shown
  (e : Env) (d : QTHandlers.Disk) (ans : QTHandlers.answer)
  (s : QT.ImageViewer) (p : Path) :
  current s = Some p ->
  if deletes e d ans p then
    exists s' : QT.ImageViewer,
      QTHandlers.delete_current e d ans s = Some s' /\
      QT.files s' = remove_at (Z.to_nat (QT.index s)) (QT.files s) /\
      len (QT.files s') = len (QT.files s) - 1 /\
      (forall q, nth_error (QT.files s) (S (Z.to_nat (QT.index s))) = Some q ->
                 current s' = Some q) /\
      (forall q, QT.index s = len (QT.files s) - 1 ->
                 nth_error (QT.files s) (Z.to_nat (QT.index s - 1)) = Some q ->
                 0 < QT.index s -> current s' = Some q)
  else QTHandlers.delete_current e d ans s = Some s.
Proof.
  intros Hc. destruct (current_position s p Hc) as [Hi Hn].
  assert (Hg : QTHandlers.getitem (QT.files s) (QT.index s) = Some p)
    by (rewrite getitem_position by exact Hi; exact Hn).
  destruct (after_delete_position e s p Hc) as (s' & Hd & Hf & Hl & Hx).
  assert (Hs : deletes e d ans p = true ->
               QTHandlers.delete_current e d ans s = Some s').
  { unfold QTHandlers.delete_current, deletes.
    destruct (QT.files s) as [|f l] eqn:E;
      [unfold len in Hi; cbn in Hi; lia|].
    rewrite Hg. cbn. destruct ans; [discriminate| |].
    - intros ->. exact Hd.
    - intros H. apply andb_prop in H. destruct H as [-> ->].
      rewrite Hd. reflexivity. }
  destruct (deletes e d ans p) eqn:Ed.
  - exists s'. split; [apply Hs; reflexivity|].
    split; [exact Hf|]. split; [exact Hl|]. split.
    + intros q Hq.
      assert (Hlt : QT.index s + 1 < len (QT.files s)).
      { assert (nth_error (QT.files s) (S (Z.to_nat (QT.index s))) <> None)
          by congruence.
        apply nth_error_Some in H. unfold len. lia. }
      assert (Hne : QT.files s' <> []).
      { intros E0. rewrite E0 in Hl. unfold len in Hl at 1. cbn in Hl. lia. }
      rewrite position_current; rewrite (Hx Hne), ?Hl; try lia.
      rewrite Z.min_l by lia. rewrite Hf.
      rewrite nth_error_remove_at_from by lia. exact Hq.
    + intros q Hlast Hq Hpos.
      assert (Hne : QT.files s' <> []).
      { intros E0. rewrite E0 in Hl. unfold len in Hl at 1. cbn in Hl. lia. }
      rewrite position_current; rewrite (Hx Hne), ?Hl; try lia.
      rewrite Z.min_r by lia. rewrite Hf.
      replace (len (QT.files s) - 2) with (QT.index s - 1) by lia.
      rewrite nth_error_remove_at_before by lia. exact Hq.
  - unfold QTHandlers.delete_current. unfold deletes in Ed.
    destruct (QT.files s) as [|f l] eqn:E; [reflexivity|].
    rewrite Hg. cbn. destruct ans; [reflexivity| |].
    + rewrite Ed. reflexivity.
    + destruct (exists_ e p); [|reflexivity]. cbn in Ed. rewrite Ed.
      reflexivity.
Qed.

(** Deleting the second of three files shows the third. *)
Lemma delete_current_removes_shown_witness :
  exists s' : QT.ImageViewer,
    QTHandlers.delete_current plain_env
      {| QTHandlers.which_gio := true;
         QTHandlers.gio_trash := fun _ => Some 0;
         QTHandlers.unlink := fun _ => true |}
      QTHandlers.Yes (QT.set_index 1 three_files) = Some s' /\
    current s' = Some ["pics"; "c.png"]%string.
Proof.
  pose proof (delete_current_removes_shown plain_env
    {| QTHandlers.which_gio := true;
       QTHandlers.gio_trash := fun _ => Some 0;
       QTHandlers.unlink := fun _ => true |}
    QTHandlers.Yes (QT.set_index 1 three_files)
    ["pics"; "b.png"]%string eq_refl) as H.
  cbn [deletes QTHandlers.move_to_trash QTHandlers.which_gio
       QTHandlers.gio_trash Z.eqb] in H.
  destruct H as (s' & Hd & _ & _ & Hnext & _).
  exists s'. split; [exact Hd|]. apply Hnext. reflexivity.
Defined.

(** X3. On a state in order no handler raises, those that open files
    apart: deleting, navigating, zooming, rotating, clicking a thumbnail
    and resizing always return. *)
Theorem handlers_return (e : Env) (d : QTHandlers.Disk)
  (ev : QTHandlers.event) (s : QT.ImageViewer) :
  in_order_state s -> opens ev = false ->
  exists s' : QT.ImageViewer, QTHandlers.handle e d ev s = Some s'.
Proof.
  intros (Hi & _) Ho. destruct ev; try discriminate; cbn; eauto.
  unfold QTHandlers.delete_current.
  destruct (QT.files s) as [|f l] eqn:E; [eauto|].
  destruct Hi as [Hi|Hi]; [discriminate|].
  rewrite getitem_position by exact Hi.
  destruct (nth_error (f :: l) (Z.to_nat (QT.index s))) as [p|] eqn:En.
  - cbn. assert (Hc : current s = Some p)
      by (rewrite position_current, E by (rewrite E; exact Hi); exact En).
    destruct (after_delete_position e s p Hc) as (s' & Hd & _).
    destruct ans; eauto.
    + destruct (QTHandlers.move_to_trash d p); eauto.
    + destruct (exists_ e p); eauto.
      destruct (QTHandlers.unlink d p); eauto. rewrite Hd. eauto.
  - apply nth_error_None in En. unfold len in Hi. lia.
Qed.

Lemma handlers_return_witness :
  exists s' : QT.ImageViewer,
    QTHandlers.handle plain_env
      {| QTHandlers.which_gio := false;
         QTHandlers.gio_trash := fun _ => None;
         QTHandlers.unlink := fun _ => true |}
      (QTHandlers.Delete QTHandlers.No) three_files = Some s'.
Proof.
  apply handlers_return; [|reflexivity].
  split; [right; vm_compute; split; congruence|].
  split; [vm_compute; split; congruence|]. split; reflexivity.
Defined.

(** ** Clicking a thumbnail *)

Lemma path_eqb_eq (p q : Path) : path_eqb p q = true <-> p = q.
Proof.
  unfold path_eqb. destruct (path_eq_dec p q); split; congruence.
Qed.

Lemma find_path_first (path : Path) (l : list Path) (i r : Z) :
  QTHandlers.find_path path i l = Some r ->
  exists k : nat,
    r = i + Z.of_nat k /\ nth_error l k = Some path /\
    forall j, (j < k)%nat -> nth_error l j <> Some path.
Proof.
  revert i. induction l as [|p l IH]; intros i; cbn; [discriminate|].
  destruct (path_eqb p path) eqn:E.
  - intros H. injection H as <-. apply path_eqb_eq in E. subst p.
    exists 0%nat. repeat split; [lia | intros j Hj; lia].
  - intros H. destruct (IH _ H) as (k & -> & Hk & Hfirst).
    exists (S k). repeat split; [lia | exact Hk |].
    intros [|j] Hj; cbn.
    + intros Hp. injection Hp as ->.
      rewrite (proj2 (path_eqb_eq path path) eq_refl) in E. discriminate.
    + apply Hfirst. lia.
Qed.

Lemma find_path_in (path : Path) (l : list Path) (i : Z) :
  In path l -> exists r, QTHandlers.find_path path i l = Some r.
Proof.
  revert i. induction l as [|p l IH]; intros i; [contradiction|]. cbn.
  destruct (path_eqb p path) eqn:E; [eauto|].
  intros [->|H]; [|apply IH; exact H].
  rewrite (proj2 (path_eqb_eq path path) eq_refl) in E. discriminate.
Qed.

Lemma NoDup_nth_error_unique {A : Type} (l : list A) (i j : nat) (x : A) :
  NoDup l -> nth_error l i = Some x -> nth_error l j = Some x -> i = j.
Proof.
  intros Hn Hi Hj. apply (proj1 (NoDup_nth_error l) Hn).
  - apply nth_error_Some. congruence.
  - congruence.
Qed.

(** X4. Clicking the thumbnail of a file of the list leaves the list as it
    is and shows that file: the index goes to the first position that holds
    the path, which is the position clicked whenever the list holds no path
    twice. *)
Theorem on_thumb_clicked_selects (e : Env) (path : Path) (s : QT.ImageViewer) :
  In path (QT.files s) ->
  QT.files (QTHandlers.on_thumb_clicked e path s) = QT.files s /\
  current (QTHandlers.on_thumb_clicked e path s) = Some path /\
  (forall j : nat,
      Z.of_nat j < QT.index (QTHandlers.on_thumb_clicked e path s) ->
      nth_error (QT.files s) j <> Some path) /\
  (NoDup (QT.files s) ->
   forall i : nat,
     nth_error (QT.files s) i = Some path ->
     QT.index (QTHandlers.on_thumb_clicked e path s) = Z.of_nat i).
Proof.
  intros Hin. unfold QTHandlers.on_thumb_clicked.
  destruct (find_path_in path (QT.files s) 0 Hin) as [r Hr]. rewrite Hr.
  destruct (find_path_first _ _ _ _ Hr) as (k & -> & Hk & Hfirst).
  assert (Hlt : (k < List.length (QT.files s))%nat)
    by (apply nth_error_Some; congruence).
  assert (Hne : QT.files s <> []) by (intros E; rewrite E in Hin; exact Hin).
  assert (Hidx : QT.index (QT.show_current e
                              (QT.set_index (0 + Z.of_nat k) s))
                 = Z.of_nat k).
  { rewrite show_current_index by exact Hne.
    rewrite clamp_index_valid; cbn; [lia | unfold len; lia]. }
  rewrite show_current_files. cbn [QT.files QT.set_index].
  split; [reflexivity|]. split; [|split].
  - rewrite position_current;
      rewrite Hidx, ?show_current_files; cbn [QT.files QT.set_index];
      [|unfold len; lia].
    rewrite Nat2Z.id. exact Hk.
  - rewrite Hidx. intros j Hj. apply Hfirst. lia.
  - intros Hnd i Hi. rewrite Hidx. f_equal.
    exact (NoDup_nth_error_unique _ _ _ _ Hnd Hk Hi).
Qed.

Lemma on_thumb_clicked_selects_witness :
  current (QTHandlers.on_thumb_clicked plain_env ["pics"; "b.png"]%string
             three_files) = Some ["pics"; "b.png"]%string.
Proof.
  apply (on_thumb_clicked_selects plain_env ["pics"; "b.png"]%string
           three_files).
  right. left. reflexivity.
Defined.

(** ** The slideshow *)

Lemma iter_next_image_files (e : Env) (k : nat) (s : QT.ImageViewer) :
  QT.files (Nat.iter k (QT.next_image e) s) = QT.files s.
Proof.
  induction k as [|k IH]; cbn; [reflexivity|].
  rewrite next_image_files. exact IH.
Qed.

Lemma iter_next_image_index (e : Env) (k : nat) (s : QT.ImageViewer) :
  QT.files s <> [] -> 0 <= QT.index s < len (QT.files s) ->
  QT.index (Nat.iter k (QT.next_image e) s)
  = (QT.index s + Z.of_nat k) mod len (QT.files s).
Proof.
  intros Hne Hi. induction k as [|k IH].
  - cbn. rewrite Z.add_0_r. symmetry. apply Z.mod_small. exact Hi.
  - change (Nat.iter (S k) (QT.next_image e) s)
      with (QT.next_image e (Nat.iter k (QT.next_image e) s)).
    rewrite next_image_index by (rewrite iter_next_image_files; exact Hne).
    rewrite iter_next_image_files, IH, Zplus_mod_idemp_l.
    f_equal. lia.
Qed.

(** X5. The slideshow timer calls [next_image]: after [k] ticks the index
    has moved by [k] modulo the number of files, so as many ticks as there
    are files bring it back, and in between every file has had its turn. *)
Theorem slideshow_cycles (e : Env) (s : QT.ImageViewer) :
  QT.files s <> [] ->
  0 <= QT.index s < len (QT.files s) ->
  (forall k : nat,
      QT.files (Nat.iter k (QT.next_image e) s) = QT.files s /\
      QT.index (Nat.iter k (QT.next_image e) s)
      = (QT.index s + Z.of_nat k) mod len (QT.files s)) /\
  QT.index (Nat.iter (List.length (QT.files s)) (QT.next_image e) s)
  = QT.index s /\
  (forall j : Z,
      0 <= j < len (QT.files s) ->
      exists k : nat,
        (k < List.length (QT.files s))%nat /\
        QT.index (Nat.iter k (QT.next_image e) s) = j).
Proof.
  intros Hne Hi. pose proof (len_pos _ Hne) as Hn. repeat split.
  - apply iter_next_image_files.
  - apply iter_next_image_index; assumption.
  - rewrite iter_next_image_index by assumption.
    change (Z.of_nat (List.length (QT.files s))) with (len (QT.files s)).
    rewrite <- (Z.mul_1_l (len (QT.files s))) at 1.
    rewrite Z.mod_add by lia. apply Z.mod_small. exact Hi.
  - intros j Hj.
    exists (Z.to_nat ((j - QT.index s) mod len (QT.files s))).
    pose proof (Z.mod_pos_bound (j - QT.index s) (len (QT.files s)) Hn) as Hb.
    split; [unfold len in *; lia|].
    rewrite iter_next_image_index by assumption.
    rewrite Z2Nat.id by lia.
    rewrite Zplus_mod_idemp_r.
    replace (QT.index s + (j - QT.index s)) with j by lia.
    apply Z.mod_small. exact Hj.
Qed.

Lemma slideshow_cycles_witness :
  QT.index (Nat.iter 3 (QT.next_image plain_env) three_files) = 2 /\
  QT.index (Nat.iter 2 (QT.next_image plain_env) three_files) = 1.
Proof.
  destruct (slideshow_cycles plain_env three_files) as (Hk & Hn & _);
    [discriminate | vm_compute; split; congruence |].
  split; [exact Hn|].
  destruct (Hk 2%nat) as [_ H2]. rewrite H2. reflexivity.
Defined.

(** ** Turning the picture *)

(** X6. Two calls of [rotate] leave the rotation one call with the sum
    leaves, so L after R (or R after L) gives back a rotation of [0, 360);
    no call of [rotate] touches the list of files, the index, the scale or
    the fit mode. *)
Theorem rotate_composes (e : Env) (a b : Z) (s : QT.ImageViewer) :
  0 <= QT.rotation_deg s < 360 ->
  QT.rotation_deg (QT.rotate e b (QT.rotate e a s))
  = QT.rotation_deg (QT.rotate e (a + b) s) /\
  QT.rotation_deg (QT.rotate e (- a) (QT.rotate e a s)) = QT.rotation_deg s /\
  QT.files (QT.rotate e b (QT.rotate e a s)) = QT.files s /\
  QT.index (QT.rotate e b (QT.rotate e a s)) = QT.index s /\
  QT.scale (QT.rotate e b (QT.rotate e a s)) = QT.scale s /\
  QT.fit_to_window (QT.rotate e b (QT.rotate e a s)) = QT.fit_to_window s.
Proof.
  intros Hr. rewrite !rotate_rotation_deg.
  destruct (rotate_frame e b (QT.rotate e a s)) as (-> & -> & -> & ->).
  destruct (rotate_frame e a s) as (-> & -> & -> & ->).
  repeat split.
  - rewrite Zplus_mod_idemp_l. f_equal. lia.
  - rewrite Zplus_mod_idemp_l.
    replace (QT.rotation_deg s + a + - a) with (QT.rotation_deg s) by lia.
    apply Z.mod_small. exact Hr.
Qed.

Lemma rotate_composes_witness :
  QT.rotation_deg
    (QT.rotate plain_env (-90) (QT.rotate plain_env 90 turned_viewer)) = 90.
Proof.
  destruct (rotate_composes plain_env 90 (-90) turned_viewer) as (_ & H & _);
    [vm_compute; split; congruence | exact H].
Defined.

(** The pixmap [show_current] keeps: the file under the clamped index,
    turned by the rotation in force. *)
Lemma show_current_orig_pixmap (e : Env) (s : QT.ImageViewer) (f : Path) :
  shown_file s = Some f -> decodes e f = true ->
  QT.orig_pixmap (QT.show_current e s) = Some (f, QT.rotation_deg s).
Proof.
  unfold shown_file, QT.show_current, clamp_index.
  destruct (QT.files s) as [|p l] eqn:E.
  - destruct (Z.to_nat _); discriminate.
  - intros H Hd. cbn [QT.index QT.files QT.set_index]. rewrite E.
    rewrite (nth_error_nth _ _ p H), Hd. cbn [negb].
    autorewrite with qt_frame. reflexivity.
Qed.

(** X7. [rotate] stores the new rotation and renders the pixmap decoded
    before: the picture on the label is the one [update_pixmap] gives
    without the call, still turned as it was when it was decoded. The new
    rotation is applied by the next [show_current], to the file it
    decodes. *)
Theorem rotate_is_shown_by_next_show_current
  (e : Env) (deg : Z) (s : QT.ImageViewer) :
  QT.orig_pixmap (QT.rotate e deg s) = QT.orig_pixmap s /\
  QT.image_label (QT.rotate e deg s) = QT.image_label (QT.update_pixmap e s) /\
  (forall f : Path,
      shown_file s = Some f -> decodes e f = true ->
      QT.orig_pixmap (QT.show_current e (QT.rotate e deg s))
      = Some (f, (QT.rotation_deg s + deg) mod 360)).
Proof.
  split; [|split].
  - unfold QT.rotate. cbn. destruct (QT.orig_pixmap s) eqn:E;
      autorewrite with qt_frame; cbn; auto.
  - unfold QT.rotate, QT.update_pixmap. cbn.
    destruct (QT.orig_pixmap s) eqn:E; cbn; rewrite ?E; reflexivity.
  - intros f Hf Hd.
    rewrite (show_current_orig_pixmap e (QT.rotate e deg s) f);
      [rewrite rotate_rotation_deg; reflexivity | | exact Hd].
    unfold shown_file, clamp_index in *.
    destruct (rotate_frame e deg s) as (-> & -> & _). exact Hf.
Qed.

(** ** Showing the current file *)

(** Reads the fields of a state given by its setters. *)
Ltac qt_fields :=
  cbn [QT.files QT.index QT.scale QT.fit_to_window QT.rotation_deg
       QT.orig_pixmap QT.image_label QT.set_files QT.set_index QT.set_scale
       QT.set_fit_to_window QT.set_rotation_deg QT.set_orig_pixmap
       QT.set_image_label].

Lemma clamp_twice (i m : Z) : max 0 (min (max 0 (min i m)) m) = max 0 (min i m).
Proof. rewrite !max_is_Zmax, !min_is_Zmin. lia. Qed.

(** X8. [show_current] done twice is [show_current] done once: the second
    call of [open_path] on a file, and any refresh, changes nothing more. *)
Theorem show_current_idempotent (e : Env) (s : QT.ImageViewer) :
  QT.show_current e (QT.show_current e s) = QT.show_current e s.
Proof.
  destruct s as [fl i sc fit rot pm lbl]. unfold QT.show_current.
  destruct fl as [|p l]; [reflexivity|].
  qt_fields.
  destruct (decodes e (nth (Z.to_nat (max 0 (min i (len (p :: l) - 1))))
                         (p :: l) p)) eqn:Ed; cbn [negb].
  - unfold QT.update_pixmap. qt_fields.
    rewrite clamp_twice, Ed. cbn [negb]. qt_fields. reflexivity.
  - qt_fields. rewrite clamp_twice, Ed. reflexivity.
Qed.

(** ** Opening a file by its path *)

(** X9. [open_path] on a supported file that exists, in a directory that
    can be listed, returns with that file first in the list, the index on
    it and the file on show; behind it come the supported entries of the
    directory that exist (the file itself among them). Rotation and fit
    mode are kept. *)
Theorem open_path_file_shows_it
  (e : Env) (path : Path) (names : list string) (s : QT.ImageViewer) :
  is_dir e path = false ->
  listdir e (parent path) = Some names ->
  supported path = true ->
  exists_ e path = true ->
  exists s' : QT.ImageViewer,
    QT.open_path e path s = Some s' /\
    QT.files s'
    = path :: filter (exists_ e)
                (filter supported (map (child (parent path)) names)) /\
    QT.index s' = 0 /\
    current s' = Some path /\
    QT.rotation_deg s' = QT.rotation_deg s /\
    QT.fit_to_window s' = QT.fit_to_window s.
Proof.
  intros Hd Hl Hs Hx.
  set (rest := filter supported (map (child (parent path)) names)).
  assert (Hfl : filter supported (path :: map (child (parent path)) names)
                = path :: rest) by (cbn [filter]; rewrite Hs; reflexivity).
  set (s1 := QT.load_files e (path :: rest) s).
  assert (Hf : QT.files s1 = path :: filter (exists_ e) rest).
  { unfold s1. rewrite load_files_files. cbn [filter]. rewrite Hx.
    reflexivity. }
  assert (Ho : QT.open_path e path s
               = Some (QT.show_current e (QT.set_index 0 s1))).
  { unfold QT.open_path, iterdir. rewrite Hd, Hl. unfold bind.
    rewrite Hfl. fold s1. rewrite Hf. cbn [QT.find_resolved].
    rewrite (proj2 (path_eqb_eq _ _) eq_refl). reflexivity. }
  assert (Hi : QT.index (QT.show_current e (QT.set_index 0 s1)) = 0).
  { rewrite show_current_index by (cbn; rewrite Hf; discriminate).
    apply clamp_index_valid. cbn. rewrite Hf. unfold len. cbn. lia. }
  exists (QT.show_current e (QT.set_index 0 s1)).
  split; [exact Ho|]. rewrite show_current_files. qt_fields.
  split; [exact Hf|]. split; [exact Hi|]. split.
  - rewrite position_current; rewrite Hi, ?show_current_files; qt_fields;
      rewrite Hf; [reflexivity | unfold len; cbn; lia].
  - autorewrite with qt_frame. qt_fields. unfold s1, QT.load_files.
    autorewrite with qt_frame. qt_fields. auto.
Qed.

Lemma open_path_file_shows_it_witness :
  exists s' : QT.ImageViewer,
    QT.open_path (pics_env ["a.png"; "b.png"]%string)
      ["pics"; "b.png"]%string QT.init = Some s' /\
    current s' = Some ["pics"; "b.png"]%string.
Proof.
  destruct (open_path_file_shows_it (pics_env ["a.png"; "b.png"]%string)
              ["pics"; "b.png"]%string ["a.png"; "b.png"]%string QT.init)
    as (s' & Ho & _ & _ & Hc & _); try reflexivity.
  exists s'. split; [exact Ho | exact Hc].
Defined.


(** ** The sort key of a name *)

(** The properties of the 256 characters are checked one by one. *)
Ltac each_char c :=
  destruct c as [[] [] [] [] [] [] [] []]; reflexivity.

Lemma lower_char_is_decimal (c : ascii) :
  is_decimal (lower_char c) = is_decimal c.
Proof. each_char c. Qed.

Lemma lower_char_is_digit (c : ascii) :
  is_digit (lower_char c) = is_digit c.
Proof. each_char c. Qed.

Lemma lower_char_twice (c : ascii) :
  lower_char (lower_char c) = lower_char c.
Proof. each_char c. Qed.

Lemma lower_char_of_decimal (c : ascii) :
  is_decimal c = true -> lower_char c = c.
Proof.
  destruct c as [[] [] [] [] [] [] [] []]; (reflexivity || discriminate).
Qed.

Lemma lower_app (s t : string) : lower (s ++ t) = (lower s ++ lower t)%string.
Proof. induction s as [|c s IH]; cbn; [reflexivity|]. rewrite IH. reflexivity. Qed.

Lemma lower_twice (t : string) : lower (lower t) = lower t.
Proof.
  induction t as [|c t IH]; cbn; [reflexivity|].
  rewrite lower_char_twice, IH. reflexivity.
Qed.

Lemma re_split_digits_from_lower (s cur : string) (in_run : bool) :
  re_split_digits_from (lower cur) in_run (lower s)
  = map lower (re_split_digits_from cur in_run s).
Proof.
  revert cur in_run. induction s as [|c s IH]; intros cur in_run; cbn.
  - destruct in_run; reflexivity.
  - rewrite lower_char_is_decimal.
    destruct (Bool.eqb (is_decimal c) in_run); cbn.
    + rewrite <- IH, lower_app. reflexivity.
    + rewrite <- (IH (String c EmptyString)). reflexivity.
Qed.

Lemma all_digits_lower (t : string) :
  all_chars is_digit (lower t) = all_chars is_digit t.
Proof.
  induction t as [|c t IH]; cbn; [reflexivity|].
  rewrite lower_char_is_digit, IH. reflexivity.
Qed.

Lemma isdigit_lower (t : string) : isdigit (lower t) = isdigit t.
Proof.
  destruct t as [|c t]; [reflexivity|].
  exact (all_digits_lower (String c t)).
Qed.

Lemma int_digits_lower (t : string) (acc : Z) :
  int_digits acc (lower t) = int_digits acc t.
Proof.
  revert acc. induction t as [|c t IH]; intros acc; cbn; [reflexivity|].
  rewrite lower_char_is_decimal. destruct (is_decimal c) eqn:E; [|reflexivity].
  rewrite (lower_char_of_decimal c E). apply IH.
Qed.

Lemma key_of_piece_lower (t : string) :
  key_of_piece (lower t) = key_of_piece t.
Proof.
  unfold key_of_piece. rewrite isdigit_lower, lower_twice.
  destruct (isdigit t); [|reflexivity].
  unfold int. destruct t as [|c t]; [reflexivity|].
  cbn [lower]. change (String (lower_char c) (lower t)) with (lower (String c t)).
  rewrite int_digits_lower. reflexivity.
Qed.

Lemma comprehension_map {A B C : Type} (f : B -> option C) (g : A -> B)
  (l : list A) :
  comprehension f (map g l) = comprehension (fun x => f (g x)) l.
Proof.
  induction l as [|x l IH]; cbn; [reflexivity|]. rewrite IH. reflexivity.
Qed.

Lemma comprehension_ext {A B : Type} (f g : A -> option B) (l : list A) :
  (forall x, f x = g x) -> comprehension f l = comprehension g l.
Proof.
  intros H. induction l as [|x l IH]; cbn; [reflexivity|].
  rewrite H, IH. reflexivity.
Qed.

Lemma human_sort_key_of_lower (name_ : string) :
  comprehension key_of_piece (re_split_digits (lower name_))
  = comprehension key_of_piece (re_split_digits name_).
Proof.
  unfold re_split_digits.
  change EmptyString with (lower EmptyString) at 1.
  rewrite re_split_digits_from_lower, comprehension_map.
  apply comprehension_ext, key_of_piece_lower.
Qed.

(** X10. [human_sort_key] does not see the case of letters: two paths
    whose names are equal once in lower case get the same key (or both
    raise), so such files tie in the order of a directory. *)
Theorem human_sort_key_ignores_case (p q : Path) :
  lower (name p) = lower (name q) -> human_sort_key p = human_sort_key q.
Proof.
  intros H. unfold human_sort_key.
  rewrite <- (human_sort_key_of_lower (name p)), H.
  apply human_sort_key_of_lower.
Qed.

Lemma human_sort_key_ignores_case_witness :
  human_sort_key ["pics"; "IMG10.PNG"]%string
  = human_sort_key ["other"; "img10.png"]%string.
Proof.
  apply human_sort_key_ignores_case. reflexivity.
Defined.

(** *** Names without superscript digits *)

Lemma all_chars_pieces (f : ascii -> bool) (s cur : string) (in_run : bool) :
  all_chars f cur = true -> all_chars f s = true ->
  Forall (fun t => all_chars f t = true) (re_split_digits_from cur in_run s).
Proof.
  revert cur in_run. induction s as [|c s IH]; intros cur in_run Hc Hs; cbn.
  - destruct in_run; repeat constructor; exact Hc.
  - cbn in Hs. apply andb_prop in Hs. destruct Hs as [Hfc Hs].
    destruct (Bool.eqb (is_decimal c) in_run).
    + apply IH; [|exact Hs]. rewrite all_chars_app, Hc. cbn. rewrite Hfc.
      reflexivity.
    + constructor; [exact Hc|]. apply IH; [|exact Hs]. cbn. rewrite Hfc.
      reflexivity.
Qed.

Lemma plain_isdigit_decimal (t : string) :
  plain_digits t = true -> isdigit t = true -> all_chars is_decimal t = true.
Proof.
  unfold isdigit, plain_digits. destruct t as [|c t]; [discriminate|].
  generalize (String c t). intros u.
  induction u as [|d u IH]; cbn; [reflexivity|].
  intros Hp Hd. apply andb_prop in Hp, Hd.
  destruct Hp as [Hp1 Hp2], Hd as [Hd1 Hd2].
  rewrite Hd1 in Hp1. cbn in Hp1. rewrite Hp1, (IH Hp2 Hd2). reflexivity.
Qed.

Lemma key_of_plain_piece (t : string) :
  plain_digits t = true -> exists x, key_of_piece t = Some x.
Proof.
  intros Hp. unfold key_of_piece. destruct (isdigit t) eqn:Ed; [|eauto].
  pose proof (plain_isdigit_decimal t Hp Ed) as Hdec.
  destruct t as [|c t]; [discriminate|].
  destruct (int_digits_some (String c t) 0 Hdec) as [n Hn].
  unfold int. rewrite Hn. cbn. eauto.
Qed.

Lemma comprehension_returns {A B : Type} (f : A -> option B) (l : list A) :
  Forall (fun x => exists y, f x = Some y) l ->
  exists ys, comprehension f l = Some ys.
Proof.
  induction 1 as [|x l [y Hy] _ [ys IH]]; cbn; eauto.
  rewrite Hy, IH. cbn. eauto.
Qed.

Lemma re_split_digits_from_not_nil (s cur : string) (in_run : bool) :
  re_split_digits_from cur in_run s <> [].
Proof.
  revert cur in_run. induction s as [|c s IH]; intros cur in_run; cbn.
  - destruct in_run; discriminate.
  - destruct (Bool.eqb (is_decimal c) in_run); [apply IH | discriminate].
Qed.

Lemma comprehension_length {A B : Type} (f : A -> option B) (l : list A)
  (ys : list B) :
  comprehension f l = Some ys -> List.length ys = List.length l.
Proof.
  revert ys. induction l as [|x l IH]; intros ys; cbn.
  - intros H. injection H as <-. reflexivity.
  - destruct (f x); cbn; [|discriminate].
    destruct (comprehension f l) as [zs|]; cbn; [|discriminate].
    intros H. injection H as <-. cbn. rewrite (IH zs eq_refl). reflexivity.
Qed.

Lemma human_sort_key_plain (p : Path) :
  plain_digits (name p) = true -> exists k, human_sort_key p = Some k.
Proof.
  intros Hp. unfold human_sort_key. apply comprehension_returns.
  eapply Forall_impl; [intros t; apply key_of_plain_piece|].
  apply all_chars_pieces; [reflexivity | exact Hp].
Qed.



(** *** The order of the keys *)

Lemma elem_eqb_sym (x y : key_elem) : elem_eqb x y = elem_eqb y x.
Proof.
  destruct x as [n|s], y as [m|t]; cbn; auto using Z.eqb_sym, String.eqb_sym.
Qed.

Lemma list_lt_ties (a b : list key_elem) (w : bool) :
  shape w a = true -> shape w b = true ->
  list_lt a b = Some false -> list_lt b a = Some false -> a = b.
Proof.
  revert b w. induction a as [|x a IH]; intros [|y b] w Ha Hb; cbn;
    try congruence.
  apply shape_cons in Ha, Hb. destruct Ha as [Hx Ha], Hb as [Hy Hb].
  rewrite (elem_eqb_sym y x). destruct (elem_eqb x y) eqn:E.
  - apply elem_eqb_eq in E. subst y. intros H1 H2.
    f_equal. apply (IH b (negb w)); assumption.
  - intros H1 H2.
    rewrite (elem_lt_trichotomy y x) in H2; [discriminate | congruence | |].
    + rewrite elem_eqb_sym. exact E.
    + exact H1.
Qed.

Lemma list_lt_trans (a b c : list key_elem) (w : bool) :
  shape w a = true -> shape w b = true -> shape w c = true ->
  list_lt a b = Some true -> list_lt b c = Some true ->
  list_lt a c = Some true.
Proof.
  intros Ha Hb Hc Hab Hbc.
  destruct (list_lt_total a c w Ha Hc) as [[|] Hac]; [exact Hac|].
  pose proof (list_lt_asym _ _ Hab) as Hba.
  pose proof (list_le_trans c a b w Hc Ha Hb Hac Hba) as H.
  congruence.
Qed.

(** X12. On the keys of names [<] is a strict total order: of two keys
    either one is below the other, and then not the other way round, or
    they are the same key; and below is transitive. So [sorted] ties two
    files only when their keys are equal. *)
Theorem human_sort_key_order_is_total
  (p q r : Path) (kp kq kr : list key_elem) :
  human_sort_key p = Some kp ->
  human_sort_key q = Some kq ->
  human_sort_key r = Some kr ->
  (list_lt kp kq = Some true \/ kp = kq \/ list_lt kq kp = Some true) /\
  (list_lt kp kq = Some true -> list_lt kq kp = Some false /\ kp <> kq) /\
  (list_lt kp kq = Some true -> list_lt kq kr = Some true ->
   list_lt kp kr = Some true).
Proof.
  intros Hp Hq Hr.
  apply human_sort_key_shape in Hp, Hq, Hr. unfold good_key in *.
  split; [|split].
  - destruct (list_lt_total kp kq false Hp Hq) as [[|] H1]; [auto|].
    destruct (list_lt_total kq kp false Hq Hp) as [[|] H2]; [auto|].
    right. left. apply (list_lt_ties kp kq false); assumption.
  - intros H. split; [apply list_lt_asym; exact H|].
    intros ->. rewrite list_lt_irrefl in H. discriminate.
  - apply (list_lt_trans kp kq kr false); assumption.
Qed.

Lemma human_sort_key_order_is_total_witness :
  list_lt [KStr "img"; KInt 2; KStr ".png"]%string
          [KStr "img"; KInt 10; KStr ".png"]%string = Some true /\
  list_lt [KStr "img"; KInt 10; KStr ".png"]%string
          [KStr "img"; KInt 2; KStr ".png"]%string = Some false.
Proof.
  destruct (human_sort_key_order_is_total
              ["d"; "IMG2.png"]%string ["d"; "img10.PNG"]%string
              ["d"; "img11.png"]%string
              [KStr "img"; KInt 2; KStr ".png"]%string
              [KStr "img"; KInt 10; KStr ".png"]%string
              [KStr "img"; KInt 11; KStr ".png"]%string
              eq_refl eq_refl eq_refl) as (_ & H & _).
  split; [reflexivity | apply H; reflexivity].
Defined.

(** ** Opening a directory *)

Lemma load_files_index (e : Env) (fl : list Path) (s : QT.ImageViewer) :
  QT.index (QT.load_files e fl s)
  = match filter (exists_ e) fl with [] => -1 | _ :: _ => 0 end.
Proof.
  unfold QT.load_files. qt_fields.
  destruct (filter (exists_ e) fl) as [|f r] eqn:E.
  - reflexivity.
  - rewrite show_current_index; [|qt_fields; discriminate].
    unfold clamp_index. qt_fields.
    rewrite max_is_Zmax, min_is_Zmin. unfold len. cbn [List.length]. lia.
Qed.



(** ** The GTK viewers *)

Lemma index_of_first (x : Path) (l : list Path) (i r : Z) :
  GTK.index_of x i l = Some r ->
  exists k : nat,
    r = i + Z.of_nat k /\ nth_error l k = Some x /\
    forall j, (j < k)%nat -> nth_error l j <> Some x.
Proof.
  revert i. induction l as [|p l IH]; intros i; cbn; [discriminate|].
  destruct (path_eqb p x) eqn:E.
  - intros H. injection H as <-. apply path_eqb_eq in E. subst p.
    exists 0%nat. repeat split; [lia | intros j Hj; lia].
  - intros H. destruct (IH _ H) as (k & -> & Hk & Hfirst).
    exists (S k). repeat split; [lia | exact Hk |].
    intros [|j] Hj; cbn.
    + intros Hp. injection Hp as ->.
      rewrite (proj2 (path_eqb_eq x x) eq_refl) in E. discriminate.
    + apply Hfirst. lia.
Qed.

Lemma index_of_in (x : Path) (l : list Path) (i : Z) :
  In x l <-> exists r, GTK.index_of x i l = Some r.
Proof.
  revert i. induction l as [|p l IH]; intros i; cbn.
  - split; [contradiction | intros [r H]; discriminate].
  - destruct (path_eqb p x) eqn:E.
    + apply path_eqb_eq in E. split; eauto.
    + rewrite <- IH. split; [|auto]. intros [->|H]; [|exact H].
      rewrite (proj2 (path_eqb_eq x x) eq_refl) in E. discriminate.
Qed.

Lemma child_parent_name (p : Path) : p <> [] -> child (parent p) (name p) = p.
Proof.
  intros H. unfold child, parent, name. symmetry.
  apply app_removelast_last. exact H.
Qed.

(** X14. [on_open] of the GTK viewers, the folder of the chosen file being
    listed: when the name of the file ends in one of the five extensions
    and is among the names listed, the files are the image names of the
    folder in the order listed, the index is the position of the chosen
    file and [scale] stays; when the name does not end in one of them
    (a .webp or .tiff file, say) [self.files.index(path)] raises. *)
Theorem on_open_finds_the_chosen_file
  (e : Env) (path : Path) (names : list string) (s : GTK.ImageViewer) :
  path <> [] ->
  listdir e (parent path) = Some names ->
  In (name path) names ->
  if GTK.is_image_name (name path) then
    exists s',
      GTK.on_open e path s = Some s' /\
      GTK.files s'
      = map (child (parent path)) (filter GTK.is_image_name names) /\
      0 <= GTK.index s' < len (GTK.files s') /\
      nth_error (GTK.files s') (Z.to_nat (GTK.index s')) = Some path /\
      GTK.scale s' = GTK.scale s
  else GTK.on_open e path s = None.
Proof.
  intros Hne Hl Hin. unfold GTK.on_open. rewrite Hl. cbn [bind].
  set (fl := map (child (parent path)) (filter GTK.is_image_name names)).
  destruct (GTK.is_image_name (name path)) eqn:Ei.
  - assert (Hp : In path fl).
    { rewrite <- (child_parent_name path Hne). apply in_map.
      apply filter_In. auto. }
    destruct (proj1 (index_of_in path fl 0) Hp) as [r Hr]. rewrite Hr.
    cbn [bind].
    eexists. split; [reflexivity|].
    cbn [GTK.files GTK.index GTK.scale].
    destruct (index_of_first _ _ _ _ Hr) as (k & -> & Hk & _).
    assert (Hlt : (k < List.length fl)%nat)
      by (apply nth_error_Some; congruence).
    unfold len. rewrite Z.add_0_l, Nat2Z.id.
    repeat split; [lia | lia | exact Hk].
  - destruct (GTK.index_of path 0 fl) as [r|] eqn:Hr; [|reflexivity].
    assert (Hp : In path fl) by (apply (index_of_in path fl 0); eauto).
    apply in_map_iff in Hp. destruct Hp as (n & Hn & Hf).
    apply filter_In in Hf. destruct Hf as [_ Hf].
    rewrite <- Hn, name_child in Ei. congruence.
Qed.

Lemma on_open_finds_the_chosen_file_witness :
  GTK.on_open (pics_env ["b.png"; "scan.tiff"; "a.png"]%string)
    ["pics"; "scan.tiff"]%string GTK.init = None.
Proof.
  apply (on_open_finds_the_chosen_file
           (pics_env ["b.png"; "scan.tiff"; "a.png"]%string)
           ["pics"; "scan.tiff"]%string
           ["b.png"; "scan.tiff"; "a.png"]%string GTK.init).
  - discriminate.
  - reflexivity.
  - cbn. auto.
Defined.

Lemma press_frame (b : zoom_button) (s : GTK.ImageViewer) :
  GTK.files (press b s) = GTK.files s /\ GTK.index (press b s) = GTK.index s.
Proof. destruct b; split; reflexivity. Qed.

(** X15. In main.py no press of the zoom buttons changes what is on
    screen: after any presses of zoom in, zoom out and fit the files and
    the index are the same and [show_image] shows the same file at the same
    size, since it computes the scale from the window and never reads
    [self.scale]. *)
Theorem main_zoom_buttons_show_the_same
  (d : GTK.Display) (presses : list zoom_button) (s : GTK.ImageViewer) :
  let s' := fold_left (fun s b => press b s) presses s in
  GTK.files s' = GTK.files s /\
  GTK.index s' = GTK.index s /\
  GTK.show_image d s' = GTK.show_image d s.
Proof.
  revert s. induction presses as [|b presses IH]; intros s; cbn.
  - auto.
  - destruct (IH (press b s)) as (Hf & Hi & Hs).
    destruct (press_frame b s) as [Hf' Hi'].
    rewrite Hf, Hi, Hs. repeat split; [exact Hf' | exact Hi' |].
    unfold GTK.show_image. rewrite Hf', Hi'. reflexivity.
Qed.

(** X16. [on_next] and [on_prev] of the GTK viewers on a list with files:
    whatever the index was, it is a position of the list afterwards; the
    files and [scale] stay; and from a position of the list each undoes
    the other. *)
Theorem gtk_navigation_stays_in_range (s : GTK.ImageViewer) :
  GTK.files s <> [] ->
  (0 <= GTK.index (GTK.on_next s) < len (GTK.files s) /\
   0 <= GTK.index (GTK.on_prev s) < len (GTK.files s)) /\
  (GTK.files (GTK.on_next s) = GTK.files s /\
   GTK.files (GTK.on_prev s) = GTK.files s) /\
  (GTK.scale (GTK.on_next s) = GTK.scale s /\
   GTK.scale (GTK.on_prev s) = GTK.scale s) /\
  (0 <= GTK.index s < len (GTK.files s) ->
   GTK.on_prev (GTK.on_next s) = s /\ GTK.on_next (GTK.on_prev s) = s).
Proof.
  intros Hne. split; [|split; [|split]].
  - unfold GTK.on_next, GTK.on_prev.
    destruct (GTK.files s) as [|p l] eqn:E; [congruence|].
    cbn [GTK.index]. pose proof (len_pos (p :: l)) as Hpos.
    split; apply Z.mod_pos_bound; apply Hpos; discriminate.
  - unfold GTK.on_next, GTK.on_prev. destruct (GTK.files s) eqn:E; auto.
  - unfold GTK.on_next, GTK.on_prev. destruct (GTK.files s); auto.
  - intros Hi. unfold GTK.on_prev, GTK.on_next.
    destruct s as [fl i sc]. cbn in *.
    destruct fl as [|p l] eqn:E; [congruence|].
    cbn [GTK.files GTK.index GTK.scale].
    rewrite mod_succ_pred, mod_pred_succ by exact Hi. auto.
Qed.

Lemma gtk_navigation_stays_in_range_witness :
  GTK.on_prev
    (GTK.on_next
       {| GTK.files := [["pics"; "a.png"]; ["pics"; "b.png"]]%string;
          GTK.index := 1; GTK.scale := 1.0 |})
  = {| GTK.files := [["pics"; "a.png"]; ["pics"; "b.png"]]%string;
       GTK.index := 1; GTK.scale := 1.0 |}.
Proof.
  apply (gtk_navigation_stays_in_range
           {| GTK.files := [["pics"; "a.png"]; ["pics"; "b.png"]]%string;
              GTK.index := 1; GTK.scale := 1.0 |}).
  - discriminate.
  - cbn. lia.
Defined.

(** ** The extensions the viewers take *)

Lemma lower_char_dot (c : ascii) :
  Ascii.eqb (lower_char c) "."%char = Ascii.eqb c "."%char.
Proof. each_char c. Qed.

Lemma no_dot_lower (t : string) : no_dot (lower t) = no_dot t.
Proof.
  unfold no_dot. induction t as [|c t IH]; cbn; [reflexivity|].
  rewrite lower_char_dot, IH. reflexivity.
Qed.

Lemma is_ext_lower (t : string) : is_ext (lower t) = is_ext t.
Proof.
  destruct t as [|c [|d r]]; cbn [lower is_ext]; try reflexivity.
  rewrite lower_char_dot.
  change (String (lower_char d) (lower r)) with (lower (String d r)).
  rewrite no_dot_lower. reflexivity.
Qed.

Lemma supported_exts_are_ext (x : string) :
  In x SUPPORTED_EXTS -> is_ext x = true.
Proof.
  cbn. intros H.
  repeat (destruct H as [<- | H]; [reflexivity|]). destruct H.
Qed.

Lemma rfind_dot_no_dot (r : string) : no_dot r = true -> rfind_dot r = -1.
Proof.
  unfold no_dot. induction r as [|c r IH]; cbn; [reflexivity|].
  intros H. apply andb_prop in H. destruct H as [Hc Hr].
  rewrite (IH Hr). cbn. apply negb_true_iff in Hc. rewrite Hc. reflexivity.
Qed.

Lemma rfind_dot_cons (c : ascii) (t : string) :
  rfind_dot (String c t)
  = if 0 <=? rfind_dot t then rfind_dot t + 1
    else if Ascii.eqb c "."%char then 0 else -1.
Proof. reflexivity. Qed.

Lemma rfind_dot_ext (stem ext : string) :
  is_ext ext = true ->
  rfind_dot (stem ++ ext) = Z.of_nat (String.length stem).
Proof.
  intros He. induction stem as [|c stem IH].
  - destruct ext as [|c [|d r]]; cbn in He; try discriminate.
    apply andb_prop in He. destruct He as [Hc Hr].
    cbn [String.append String.length].
    rewrite rfind_dot_cons, (rfind_dot_no_dot (String d r) Hr), Hc.
    reflexivity.
  - cbn [String.append String.length]. rewrite rfind_dot_cons, IH.
    destruct (0 <=? Z.of_nat (String.length stem)) eqn:E;
      [lia | apply Z.leb_gt in E; lia].
Qed.

Lemma string_length_app (s t : string) :
  String.length (s ++ t) = (String.length s + String.length t)%nat.
Proof. induction s as [|c s IH]; cbn; [reflexivity|]. rewrite IH. reflexivity. Qed.

Lemma string_length_lower (t : string) :
  String.length (lower t) = String.length t.
Proof. induction t as [|c t IH]; cbn; [reflexivity|]. rewrite IH. reflexivity. Qed.

Lemma drop_app (s t : string) : drop (String.length s) (s ++ t) = t.
Proof. induction s as [|c s IH]; cbn; [destruct t; reflexivity | exact IH]. Qed.

Lemma drop_lower (k : nat) (t : string) : drop k (lower t) = lower (drop k t).
Proof.
  revert t. induction k as [|k IH]; intros [|c t]; cbn; auto.
Qed.

Lemma string_length_drop (k : nat) (t : string) :
  String.length (drop k t) = (String.length t - k)%nat.
Proof.
  revert t. induction k as [|k IH]; intros [|c t]; cbn; auto.
Qed.

Lemma take_drop (k : nat) (t : string) :
  t = (String.substring 0 k t ++ drop k t)%string.
Proof.
  revert t. induction k as [|k IH]; intros [|c t]; cbn; auto.
  - f_equal. apply (IH t).
Qed.

Lemma is_ext_length (t : string) :
  is_ext t = true -> (2 <= String.length t)%nat.
Proof. destruct t as [|c [|d r]]; cbn; try discriminate. lia. Qed.

(** The suffix of a name made of a stem and an extension. *)
Lemma suffix_of_parts (p : Path) (stem ext : string) :
  name p = (stem ++ ext)%string -> stem <> EmptyString ->
  is_ext ext = true -> suffix p = ext.
Proof.
  intros Hn Hs He. unfold suffix. rewrite Hn, (rfind_dot_ext stem ext He).
  rewrite string_length_app. pose proof (is_ext_length ext He) as Hl.
  assert (Hpos : (0 < String.length stem)%nat)
    by (destruct stem; [congruence | cbn; lia]).
  destruct (0 <? Z.of_nat (String.length stem)) eqn:E1;
    [|apply Z.ltb_ge in E1; lia].
  destruct (Z.of_nat (String.length stem)
            <? Z.of_nat (String.length stem + String.length ext) - 1) eqn:E2;
    [|apply Z.ltb_ge in E2; lia].
  cbn [andb]. rewrite Nat2Z.id. apply drop_app.
Qed.

(** A non-empty suffix splits the name into a stem and the suffix. *)
Lemma parts_of_suffix (p : Path) :
  suffix p <> EmptyString ->
  exists stem, name p = (stem ++ suffix p)%string /\ stem <> EmptyString.
Proof.
  unfold suffix.
  destruct ((0 <? rfind_dot (name p))
            && (rfind_dot (name p) <? Z.of_nat (String.length (name p)) - 1))
    eqn:C; [|congruence].
  intros _. apply andb_prop in C. destruct C as [C1 C2].
  apply Z.ltb_lt in C1, C2.
  exists (String.substring 0 (Z.to_nat (rfind_dot (name p))) (name p)).
  split; [apply take_drop|].
  destruct (Z.to_nat (rfind_dot (name p))) as [|k] eqn:Ek; [lia|].
  destruct (name p) as [|c n]; [cbn in C2; lia | cbn; discriminate].
Qed.

Lemma supported_suffix (p : Path) :
  supported p = true <-> In (lower (suffix p)) SUPPORTED_EXTS.
Proof.
  unfold supported. rewrite existsb_exists. split.
  - intros (x & Hx & E). apply String.eqb_eq in E. congruence.
  - intros H. exists (lower (suffix p)). split; [exact H|].
    apply String.eqb_refl.
Qed.

Lemma supported_suffix_not_empty (p : Path) :
  In (lower (suffix p)) SUPPORTED_EXTS -> suffix p <> EmptyString.
Proof.
  intros H E. rewrite E in H. cbn in H.
  repeat (destruct H as [H | H]; [discriminate|]). destruct H.
Qed.

(** X17. The files the Qt viewer takes: [supported] holds of a path
    exactly when its name is a non-empty stem followed by one of the eight
    extensions of [SUPPORTED_EXTS] in any mix of upper and lower case. A
    name that is nothing but an extension, such as ".png", is not taken. *)
Theorem supported_iff_stem_and_extension (p : Path) :
  supported p = true <->
  exists stem ext : string,
    name p = (stem ++ ext)%string /\ stem <> EmptyString /\
    In (lower ext) SUPPORTED_EXTS.
Proof.
  rewrite supported_suffix. split.
  - intros H.
    destruct (parts_of_suffix p (supported_suffix_not_empty p H))
      as (stem & Hn & Hs).
    exists stem, (suffix p). auto.
  - intros (stem & ext & Hn & Hs & He).
    rewrite (suffix_of_parts p stem ext Hn Hs); [exact He|].
    rewrite <- is_ext_lower. apply supported_exts_are_ext. exact He.
Qed.

Lemma ends_with_drop (k : nat) (t x : string) :
  (k <= String.length t)%nat -> drop k t = x -> GTK.ends_with x t = true.
Proof.
  intros Hk Hd. unfold GTK.ends_with.
  assert (Hl : String.length x = (String.length t - k)%nat)
    by (rewrite <- Hd; apply string_length_drop).
  rewrite Hl.
  replace (String.length t - (String.length t - k))%nat with k by lia.
  rewrite Hd, String.eqb_refl.
  destruct (String.length t - k <=? String.length t)%nat eqn:E;
    [reflexivity | apply Nat.leb_gt in E; lia].
Qed.

Lemma ends_with_parts (x t : string) :
  GTK.ends_with x t = true ->
  (String.length x <= String.length t)%nat /\
  drop (String.length t - String.length x) t = x.
Proof.
  unfold GTK.ends_with. intros H. apply andb_prop in H.
  destruct H as [H1 H2]. apply Nat.leb_le in H1. apply String.eqb_eq in H2.
  auto.
Qed.

Lemma is_image_name_ends (f : string) :
  GTK.is_image_name f = true <->
  exists x, In x [".png"; ".jpg"; ".jpeg"; ".bmp"; ".gif"]%string /\
            GTK.ends_with x (lower f) = true.
Proof. unfold GTK.is_image_name. apply existsb_exists. Qed.

(** X18. The GTK viewers and the Qt viewer on one name [f] of a folder.
    A name the GTK viewers take is taken by the Qt viewer too, unless it
    is nothing but one of the five extensions (".png", ".JPG", ...); a name
    the Qt viewer takes is taken by the GTK viewers too, unless its
    extension is .webp, .tif or .tiff. *)
Theorem gtk_and_qt_take_the_same_names (dir : Path) (f : string) :
  (GTK.is_image_name f = true ->
   supported (child dir f) = true \/
   In (lower f) [".png"; ".jpg"; ".jpeg"; ".bmp"; ".gif"]%string) /\
  (supported (child dir f) = true ->
   GTK.is_image_name f = true \/
   In (lower (suffix (child dir f))) [".webp"; ".tif"; ".tiff"]%string).
Proof.
  split.
  - intros H. apply is_image_name_ends in H. destruct H as (x & Hx & He).
    apply ends_with_parts in He. destruct He as [Hlen Hd].
    rewrite string_length_lower in Hlen, Hd.
    set (k := (String.length f - String.length x)%nat) in *.
    rewrite drop_lower in Hd.
    assert (Hx8 : In x SUPPORTED_EXTS)
      by (cbn in Hx |- *; intuition auto).
    destruct (String.substring 0 k f) as [|c stem] eqn:Es.
    + right. pose proof (take_drop k f) as Hf. rewrite Es in Hf. cbn in Hf.
      rewrite Hf, Hd. exact Hx.
    + left. apply supported_suffix.
      rewrite (suffix_of_parts (child dir f) (String c stem) (drop k f)).
      * rewrite Hd. exact Hx8.
      * rewrite name_child, <- Es. apply take_drop.
      * discriminate.
      * rewrite <- is_ext_lower, Hd. apply supported_exts_are_ext, Hx8.
  - intros H. apply supported_suffix in H.
    pose proof (supported_suffix_not_empty _ H) as Hne.
    assert (Hcases :
      In (lower (suffix (child dir f)))
         [".png"; ".jpg"; ".jpeg"; ".bmp"; ".gif"]%string \/
      In (lower (suffix (child dir f))) [".webp"; ".tif"; ".tiff"]%string)
      by (cbn in H |- *; intuition auto).
    destruct Hcases as [H5 | H3]; [left | right; exact H3].
    apply is_image_name_ends. exists (lower (suffix (child dir f))).
    split; [exact H5|].
    revert Hne. unfold suffix. rewrite name_child.
    destruct ((0 <? rfind_dot f)
              && (rfind_dot f <? Z.of_nat (String.length f) - 1)) eqn:C;
      [|congruence].
    intros _. apply andb_prop in C. destruct C as [C1 C2].
    apply Z.ltb_lt in C1, C2.
    apply (ends_with_drop (Z.to_nat (rfind_dot f))).
    + rewrite string_length_lower. lia.
    + apply drop_lower.
Qed.
